(** * sync_pool: a generic fork of Go's sync.Pool

    A shallow embedding of [pool_queue.go] (the ring segment [poolDequeue]
    and the segment chain [poolChain]) and of the pool file ([Pool.Put],
    [Pool.Get], [Pool.getSlow], [Pool.pin], [Pool.pinSlow], [poolCleanup]),
    followed by the properties of the specification that concern them.

    Modelling conventions.
    - The model is that of one goroutine running alone: an atomic [Load]
      reads the field, [Store] and [Add] write it, and [CompareAndSwap] is
      the comparison followed by the write.  The CAS loops keep their
      shape: they are fixpoints over a retry budget.
    - Fixed-width integers are [Z] with the wrap-around written out
      ([uint32], [uint64], [int]).
    - The element type [T] is instantiated at a word-sized type whose zero
      value is the all-zero word (Go's [int], a pointer): the code stores a
      [T] over the pointer word of a slot
      ([*( *T)(unsafe.Pointer(slot)) = val]), so a slot is the word it
      holds, [slot.Load() != nil] is [word <> 0], and
      [isNil] ([reflect.ValueOf(t).IsZero()]) is [word = 0].
    - A run-time panic (nil dereference, index out of range) is the
      outcome [Panics]; the state returned with it is the memory at the
      moment of the panic.
    - The build is the ordinary one: [race.Enabled] is false. *)

From Stdlib Require Import ZArith Lia.
From stdpp Require Import base list gmap.

Local Open Scope Z_scope.

(** ** Machine integers *)

Definition uint32 (z : Z) : Z := z mod 2 ^ 32.
Definition uint64 (z : Z) : Z := z mod 2 ^ 64.
Definition uintptr (z : Z) : Z := z mod 2 ^ 64.
(** Go's [int] on a 64-bit platform: two's complement. *)
Definition int (z : Z) : Z := (z + 2 ^ 63) mod 2 ^ 64 - 2 ^ 63.

(** ** Outcomes of a call *)

Inductive outcome (A : Type) : Type :=
| Returns (a : A)   (* the call returns [a] *)
| Panics            (* the call aborts with a run-time panic *)
| Spins.            (* a CAS loop used up its retry budget *)
Arguments Returns {A} a.
Arguments Panics {A}.
Arguments Spins {A}.

(** The element type and its zero value. *)
Abbreviation T := Z (only parsing).
Definition zeroValue : T := 0.
Definition isNil (t : T) : bool := t =? 0.

(** ** The ring segment: [poolDequeue] *)

Module Dequeue.

Record poolDequeue : Type := mkDequeue {
  headTail : Z;        (* atomic.Uint64 *)
  vals : list Z        (* []atomic.Pointer[T]: one word per slot, 0 is nil *)
}.

Definition dequeueBits : Z := 32.

Definition dequeueLimit : Z := (1 ≪ dequeueBits) / 4.

Definition mask : Z := 1 ≪ dequeueBits - 1.

Definition unpack (ptrs : Z) : Z * Z :=
  (uint32 (Z.land (ptrs ≫ dequeueBits) mask), uint32 (Z.land ptrs mask)).

Definition pack (head tail : Z) : Z :=
  Z.lor (uint64 (head ≪ dequeueBits)) (Z.land tail mask).

(** [len(d.vals)] *)
Definition len (d : poolDequeue) : Z := Z.of_nat (length (vals d)).

Definition CompareAndSwap (old new : Z) (d : poolDequeue) : bool * poolDequeue :=
  if headTail d =? old then (true, mkDequeue new (vals d)) else (false, d).

(** [&d.vals[i]] for a [uint32] index [i]: the slot's position, or nothing
    when the index is out of range (Go panics there). *)
Definition slotAt (d : poolDequeue) (i : Z) : option (nat * Z) :=
  (λ w, (Z.to_nat i, w)) <$> vals d !! Z.to_nat i.

Definition pushHead (val : T) (d : poolDequeue) : outcome bool * poolDequeue :=
  let ptrs := headTail d in
  let '(head, tail) := unpack ptrs in
  if Z.land (uint32 (tail + uint32 (len d))) mask =? head then
    (Returns false, d)
  else
    match slotAt d (Z.land head (uint32 (len d - 1))) with
    | None => (Panics, d)                       (* index out of range *)
    | Some (slot, w) =>
        if negb (w =? 0) then (Returns false, d)
        else if isNil val then
          (Panics, d)                           (* reads through a nil pointer *)
        else
          (Returns true,
           mkDequeue (uint64 (headTail d + 1 ≪ dequeueBits))
                     (<[slot := val]> (vals d)))
    end.

Fixpoint popHead_loop (budget : nat) (d : poolDequeue)
  : outcome (T * bool) * poolDequeue :=
  match budget with
  | O => (Spins, d)
  | S budget' =>
      let ptrs := headTail d in
      let '(head, tail) := unpack ptrs in
      if tail =? head then
        (Panics, d)                             (* [return *zero, false], [zero] a nil [*T] *)
      else
        let head := uint32 (head - 1) in
        let ptrs2 := pack head tail in
        match CompareAndSwap ptrs ptrs2 d with
        | (true, d1) =>
            match slotAt d1 (Z.land head (uint32 (len d1 - 1))) with
            | None => (Panics, d1)              (* index out of range *)
            | Some (slot, val) =>
                if isNil val then (Panics, d1)  (* reads through a nil pointer *)
                else (Returns (val, true),
                      mkDequeue (headTail d1) (<[slot := 0]> (vals d1)))
            end
        | (false, d1) => popHead_loop budget' d1
        end
  end.

Fixpoint popTail_loop (budget : nat) (d : poolDequeue)
  : outcome (T * bool) * poolDequeue :=
  match budget with
  | O => (Spins, d)
  | S budget' =>
      let ptrs := headTail d in
      let '(head, tail) := unpack ptrs in
      if tail =? head then
        (Returns (zeroValue, false), d)
      else
        let ptrs2 := pack head (uint32 (tail + 1)) in
        match CompareAndSwap ptrs ptrs2 d with
        | (true, d1) =>
            match slotAt d1 (Z.land tail (uint32 (len d1 - 1))) with
            | None => (Panics, d1)              (* index out of range *)
            | Some (slot, val) =>
                if isNil val then (Panics, d1)  (* reads through a nil pointer *)
                else
                  (* [slot = nil; slot.Store(nil)]: a store through the
                     nil [*atomic.Pointer[T]] *)
                  (Panics, d1)
            end
        | (false, d1) => popTail_loop budget' d1
        end
  end.

(** One goroutine alone wins its first CAS (see [popHead_loop_budget] and
    [popTail_loop_budget] below), so callers run the loops with a budget of
    one attempt. *)
Definition popHead (d : poolDequeue) : outcome (T * bool) * poolDequeue :=
  popHead_loop 1 d.

Definition popTail (d : poolDequeue) : outcome (T * bool) * poolDequeue :=
  popTail_loop 1 d.

(** [make([]atomic.Pointer[T], n)], for a length [n] that is not negative. *)
Definition makeVals (n : Z) : list Z := replicate (Z.to_nat n) 0.

(** [NewPoolDequeue(n)]: the exported constructor starts both indices
    close to the wrap-around. *)
Definition NewPoolDequeue (n : Z) : poolDequeue :=
  mkDequeue (pack (uint32 (1 ≪ dequeueBits - 500)) (uint32 (1 ≪ dequeueBits - 500)))
            (makeVals n).

(** [new(poolChainElt[T])] followed by [d.vals = make(..., n)]: the packed
    word starts at zero. *)
Definition newElt (n : Z) : poolDequeue := mkDequeue 0 (makeVals n).

(** The two indices, read off the packed word. *)
Definition headOf (d : poolDequeue) : Z := fst (unpack (headTail d)).
Definition tailOf (d : poolDequeue) : Z := snd (unpack (headTail d)).

End Dequeue.

(** ** The segment chain: [poolChain]

    The chain is the list of its segments from the oldest (the one
    [c.tail] points to) to the newest (the one [c.head] points to): the
    [next] links read it forwards and the [prev] links backwards.  The
    empty list is the chain whose [head] and [tail] are nil.  Advancing
    [c.tail] past a segment and clearing its successor's [prev] link drops
    the segment from the list. *)

Module Chain.
Import Dequeue.

Record poolChain : Type := mkChain {
  segs : list poolDequeue
}.

Definition initSize : Z := 8.

(** [c.head], nil on the empty chain. *)
Definition head (c : poolChain) : option poolDequeue := last (segs c).

(** Writes the segment [c.head] points to. *)
Definition setHead (d : poolDequeue) (c : poolChain) : poolChain :=
  mkChain (removelast (segs c) ++ [d]).

(** Links a new segment after the newest one and moves [c.head] to it. *)
Definition link (d2 : poolDequeue) (c : poolChain) : poolChain :=
  mkChain (segs c ++ [d2]).

Definition pushHead (val : T) (c : poolChain) : outcome unit * poolChain :=
  let '(d, c) :=
    match head c with
    | None => let d := newElt initSize in (d, link d c)
    | Some d => (d, c)
    end in
  match Dequeue.pushHead val d with
  | (Returns true, d') => (Returns tt, setHead d' c)
  | (Returns false, d') =>
      let c := setHead d' c in
      let newSize := int (len d' ≪ 1) in
      let newSize := if newSize >=? dequeueLimit then dequeueLimit else newSize in
      let d2 := newElt newSize in
      match Dequeue.pushHead val d2 with
      | (Returns _, d2') => (Returns tt, link d2' c)
      | (Panics, d2') => (Panics, link d2' c)
      | (Spins, d2') => (Spins, link d2' c)
      end
  | (Panics, d') => (Panics, setHead d' c)
  | (Spins, d') => (Spins, setHead d' c)
  end.

(** The walk of [popHead] from [c.head] along the [prev] links; the
    segments are given newest first. *)
Fixpoint popHead_walk (ds : list poolDequeue)
  : outcome (T * bool) * list poolDequeue :=
  match ds with
  | [] => (Returns (zeroValue, false), [])
  | d :: older =>
      match Dequeue.popHead d with
      | (Returns (val, true), d') => (Returns (val, true), d' :: older)
      | (Returns (_, false), d') =>
          let '(r, older') := popHead_walk older in (r, d' :: older')
      | (Panics, d') => (Panics, d' :: older)
      | (Spins, d') => (Spins, d' :: older)
      end
  end.

Definition popHead (c : poolChain) : outcome (T * bool) * poolChain :=
  let '(r, ds) := popHead_walk (rev (segs c)) in (r, mkChain (rev ds)).

(** The loop of [popTail], entered with [d], the segment [c.tail] points
    to, and [newer], the segments after it. *)
Fixpoint popTail_from (d : poolDequeue) (newer : list poolDequeue)
  : outcome (T * bool) * list poolDequeue :=
  match Dequeue.popTail d with
  | (Returns (val, true), d') => (Returns (val, true), d' :: newer)
  | (Returns (_, false), d') =>
      match newer with
      | [] => (Returns (zeroValue, false), d' :: newer)
      | d2 :: newer' =>
          (* [c.tail.CompareAndSwap(d, d2)] succeeds; [d2.prev.Store(nil)] *)
          popTail_from d2 newer'
      end
  | (Panics, d') => (Panics, d' :: newer)
  | (Spins, d') => (Spins, d' :: newer)
  end.

Definition popTail (c : poolChain) : outcome (T * bool) * poolChain :=
  match segs c with
  | [] => (Returns (zeroValue, false), c)
  | d :: newer => let '(r, ds) := popTail_from d newer in (r, mkChain ds)
  end.

(** The capacities of the segments, oldest first. *)
Definition capacities (c : poolChain) : list Z := len <$> segs c.

End Chain.

(** ** A small state-and-panic monad

    A computation over a state [S] returns an outcome and the state it
    leaves; a panic or an exhausted budget stops the sequence. *)

Definition M (S A : Type) : Type := S → outcome A * S.

Definition ret {S A : Type} (a : A) : M S A := λ s, (Returns a, s).

Definition bind {S A B : Type} (m : M S A) (k : A → M S B) : M S B :=
  λ s, match m s with
       | (Returns a, s') => k a s'
       | (Panics, s') => (Panics, s')
       | (Spins, s') => (Spins, s')
       end.

Notation "x <~ m ;; k" := (bind m (λ x, k))
  (at level 100, m at next level, right associativity).

(** [for i := from; ...; i++] running [n] times; the body answers
    [Some a] to return [a] from the enclosing function and [None] to go
    on. *)
Fixpoint forRange {S A : Type} (body : Z → M S (option A)) (from : Z) (n : nat)
  : M S (option A) :=
  match n with
  | O => ret None
  | S n' =>
      r <~ body from ;;
      match r with
      | Some a => ret (Some a)
      | None => forRange body (from + 1) n'
      end
  end.

(** ** The pool *)

Module Pools.
Import Dequeue Chain.

(** [poolLocalInternal]; the padding of [poolLocal] holds no data. *)
Record poolLocal : Type := mkLocal {
  private : T;
  shared : poolChain
}.

(** A pointer to an array of [poolLocal] is [None] when nil and the array
    otherwise.  The [noCopy] marker, the padding and the field [size],
    which no function reads or writes, are left out. *)
Record Pool : Type := mkPool {
  New : option (unit → T);
  local : option (list poolLocal);
  localSize : Z;
  victim : option (list poolLocal);
  victimSize : Z
}.

(** What the host scheduler answers: the worker the caller is pinned to
    ([runtime_procPin]) and [runtime.GOMAXPROCS(0)]. *)
Record runtime : Type := mkRuntime {
  procPin : Z;
  GOMAXPROCS : Z
}.

(** The two arrays a [*poolLocal] can point into. *)
Inductive generation : Type := Current | Victim.

Definition arrayOf (g : generation) (p : Pool) : option (list poolLocal) :=
  match g with Current => local p | Victim => victim p end.

Definition setArray (g : generation) (a : list poolLocal) (p : Pool) : Pool :=
  match g with
  | Current => mkPool (New p) (Some a) (localSize p) (victim p) (victimSize p)
  | Victim => mkPool (New p) (local p) (localSize p) (Some a) (victimSize p)
  end.

(** [indexLocal(l, i)] is pointer arithmetic without a bounds check; the
    model answers nothing where the pointer leaves the array (or the array
    is nil), and the access through it is a fault. *)
Definition indexLocal (l : option (list poolLocal)) (i : Z) : option poolLocal :=
  if 0 <=? i then a ← l; a !! Z.to_nat i else None.

(** Runs [m] on the [poolLocal] that [indexLocal] of generation [g] at [i]
    points to, and writes the result back in place. *)
Definition atLocal {A : Type} (g : generation) (i : Z) (m : M poolLocal A)
  : M Pool A :=
  λ p, match indexLocal (arrayOf g p) i, arrayOf g p with
       | Some l, Some a =>
           let '(r, l') := m l in (r, setArray g (<[Z.to_nat i := l']> a) p)
       | _, _ => (Panics, p)
       end.

(** Runs [m] on [l.shared]. *)
Definition onShared {A : Type} (m : M poolChain A) : M poolLocal A :=
  λ l, let '(r, c) := m (shared l) in (r, mkLocal (private l) c).

Definition getPrivate : M poolLocal T := λ l, (Returns (private l), l).

Definition setPrivate (x : T) : M poolLocal unit :=
  λ l, (Returns tt, mkLocal x (shared l)).

Definition storeVictimSize (n : Z) : M Pool unit :=
  λ p, (Returns tt, mkPool (New p) (local p) (localSize p) (victim p) n).

(** [pinSlow]: under the registry lock.  Its result is the worker index;
    the [*poolLocal] it returns is [indexLocal] of the current generation
    at that index.  The append to [allPools] (of [&p], the address of the
    receiver variable, converted to [*Pool[any]]) writes the registry,
    which no function of this module reads; it is [Registry.register],
    and [Registry.callAt] runs it with the call. *)
Definition pinSlow (rt : runtime) : M Pool Z :=
  λ p,
    let pid := procPin rt in
    let s := localSize p in
    if uintptr pid <? s then (Returns pid, p)
    else
      let size := GOMAXPROCS rt in
      let fresh := replicate (Z.to_nat size) (mkLocal zeroValue (mkChain [])) in
      match fresh with
      | [] => (Panics, p)                                 (* [&local[0]] *)
      | _ :: _ =>
          let p := mkPool (New p) (Some fresh) (uintptr size)
                          (victim p) (victimSize p) in
          if (0 <=? pid) && (pid <? size) then (Returns pid, p)
          else (Panics, p)                                (* [&local[pid]] *)
      end.

(** [pin], on a pool that is not nil. *)
Definition pin (rt : runtime) : M Pool Z :=
  λ p,
    let pid := procPin rt in
    let s := localSize p in
    if uintptr pid <? s then (Returns pid, p)
    else pinSlow rt p.

Definition Put (rt : runtime) (x : T) : M Pool unit :=
  if isNil x then ret tt
  else
    pid <~ pin rt ;;
    if isNil x then atLocal Current pid (setPrivate x)
    else atLocal Current pid (onShared (Chain.pushHead x)).

(** [&x != nil] for a local variable [x]. *)
Definition addressIsNotNil : bool := true.

Definition getSlow (pid : Z) : M Pool T :=
  λ p,
    let size := localSize p in
    (r <~ forRange (λ i,
           x <~ atLocal Current (Z.rem (int (pid + i + 1)) (int size))
                 (onShared Chain.popTail) ;;
           if negb (isNil (fst x)) then ret (Some (fst x)) else ret None)
         0 (Z.to_nat (int size)) ;;
     match r with
     | Some x => ret x
     | None =>
         λ p,
           let size := victimSize p in
           if uintptr pid >=? size then (Returns zeroValue, p)
           else
             (x <~ atLocal Victim pid getPrivate ;;
              if negb (isNil x) then
                _ <~ atLocal Victim pid (setPrivate zeroValue) ;; ret x
              else
                r <~ forRange (λ i,
                      x <~ atLocal Victim (Z.rem (int (pid + i)) (int size))
                            (onShared Chain.popTail) ;;
                      if addressIsNotNil then ret (Some (fst x)) else ret None)
                    0 (Z.to_nat (int size)) ;;
                match r with
                | Some x => ret x
                | None => _ <~ storeVictimSize 0 ;; ret zeroValue
                end) p
     end) p.

Definition Get (rt : runtime) : M Pool T :=
  pid <~ pin rt ;;
  x <~ atLocal Current pid getPrivate ;;
  _ <~ atLocal Current pid (setPrivate zeroValue) ;;
  x <~ (if isNil x then
         r <~ atLocal Current pid (onShared Chain.popHead) ;;
         let x := fst r in
         if isNil x then getSlow pid else ret x
       else ret x) ;;
  λ p, match New p with
       | Some new => if isNil x then (Returns (new tt), p) else (Returns x, p)
       | None => (Returns x, p)
       end.

(** The zero [Pool] with a factory: [Pool[T]{New: f}]. *)
Definition newPool (f : option (unit → T)) : Pool := mkPool f None 0 None 0.

End Pools.

(** ** The generation registry and the decay step

    The registry's slices hold [*Pool[any]] pointers.  The one statement
    that adds an entry is [pinSlow]'s
    [allPools = append(allPools, ( *Pool[any])(unsafe.Pointer(&p)))],
    where [p] is [pinSlow]'s receiver variable, itself a [*Pool[T]]: what
    is appended is the address of that variable (one word on the heap,
    holding the pool's address), not the address of the pool.  So a
    pointer of the registry is one of two things, [PoolAt] and
    [ReceiverVar] below.

    The fields [poolCleanup] reads and writes through an entry lie past
    the first 128 bytes of a [Pool] ([local] at offset 128, [localSize] at
    192, [victim] at 256, [victimSize] at 320, by the padding of the
    struct).  Through the address of a pool they are the pool's fields.
    Through the address of a receiver variable, which is one word long,
    they are the memory that follows the variable on the heap; no pool
    lives there, so these stores change no pool. *)

Module Registry.
Import Pools.

Inductive poolPtr : Type :=
| PoolAt (a : nat)        (* the address of the pool at [a] *)
| ReceiverVar (n : nat).  (* [&p]: the address of the [n]-th receiver
                             variable that escaped from [pinSlow] *)

#[global] Instance poolPtr_eq_dec : EqDecision poolPtr.
Proof. solve_decision. Defined.

Record registry : Type := mkRegistry {
  pools : gmap nat Pool;     (* the pools, by address *)
  receivers : list nat;      (* the escaped receiver variables, in the order
                                of their allocation: each holds the address
                                of the pool its call was made on *)
  allPools : list poolPtr;
  oldPools : list poolPtr
}.

(** [p.victim = nil; p.victimSize = 0] *)
Definition dropVictim (p : Pool) : Pool :=
  mkPool (New p) (local p) (localSize p) None 0.

(** [p.victim = p.local; p.victimSize = p.localSize; p.local = nil;
    p.localSize = 0] *)
Definition demote (p : Pool) : Pool :=
  mkPool (New p) None 0 (local p) (localSize p).

(** The loads and stores of [body] through the pointer [q]. *)
Definition through (body : Pool → Pool) (q : poolPtr) (h : gmap nat Pool)
  : gmap nat Pool :=
  match q with
  | PoolAt a => alter body a h
  | ReceiverVar _ => h
  end.

(** [for _, p := range ps { body }] over a slice of pool pointers. *)
Definition rangeOver (body : Pool → Pool) (ps : list poolPtr) (h : gmap nat Pool)
  : gmap nat Pool :=
  foldl (λ h q, through body q h) h ps.

Definition dropVictims (r : registry) : registry :=
  mkRegistry (rangeOver dropVictim (oldPools r) (pools r))
             (receivers r) (allPools r) (oldPools r).

Definition demoteAll (r : registry) : registry :=
  mkRegistry (rangeOver demote (allPools r) (pools r))
             (receivers r) (allPools r) (oldPools r).

(** [oldPools, allPools = allPools, nil] *)
Definition swapSets (r : registry) : registry :=
  mkRegistry (pools r) (receivers r) [] (allPools r).

Definition poolCleanup (r : registry) : registry :=
  swapSets (demoteAll (dropVictims r)).

(** *** Registration

    [pinSlow] reaches its append when the test [uintptr(pid) < s] has
    failed (in [pin] and again under the lock) and [p.local == nil]. *)
Definition pinAppends (rt : runtime) (p : Pool) : bool :=
  negb (uintptr (procPin rt) <? localSize p)
  && match local p with None => true | Some _ => false end.

(** The append, in a call on the pool at [a]: the receiver variable of
    the call is a new word on the heap that holds [a], and its address is
    the new entry. *)
Definition register (a : nat) (r : registry) : registry :=
  mkRegistry (pools r) (receivers r ++ [a])
             (allPools r ++ [ReceiverVar (length (receivers r))]) (oldPools r).

Definition setPools (h : gmap nat Pool) (r : registry) : registry :=
  mkRegistry h (receivers r) (allPools r) (oldPools r).

(** A method [m] that pins, called on the pointer [a]: on the nil pointer
    (no pool at [a]) [pin] panics; otherwise the call registers as
    [pinSlow] does and changes the pool as [m] does.  The append comes
    before the statements of [pinSlow] that can panic, so it stays
    whatever the outcome of [m]. *)
Definition callAt {A : Type} (rt : runtime) (m : M Pool A) (a : nat)
  : M registry A :=
  λ r,
    match pools r !! a with
    | None => (Panics, r)
    | Some p =>
        let r1 := if pinAppends rt p then register a r else r in
        let '(o, p') := m p in
        (o, setPools (<[a := p']> (pools r1)) r1)
    end.

(** [Put] returns before it pins when [x] is the zero value. *)
Definition PutAt (rt : runtime) (a : nat) (x : T) : M registry unit :=
  if isNil x then ret tt else callAt rt (Put rt x) a.

Definition GetAt (rt : runtime) (a : nat) : M registry T :=
  callAt rt (Get rt) a.

End Registry.

(** * Vocabulary of the properties *)

Import Dequeue Pools Registry.

(** ** The ring segment *)

(** The number of occupied positions, [head - tail] modulo [2^32]. *)
Definition occupancy (d : poolDequeue) : Z := uint32 (headOf d - tailOf d).

Definition within_capacity (d : poolDequeue) : Prop :=
  0 <= occupancy d <= len d.

(** Consecutive [pushHead] calls, with the outcome of each. *)
Fixpoint pushAll (vs : list T) (d : poolDequeue)
  : list (outcome bool) * poolDequeue :=
  match vs with
  | [] => ([], d)
  | v :: vs' =>
      let '(r, d1) := Dequeue.pushHead v d in
      let '(rs, d2) := pushAll vs' d1 in
      (r :: rs, d2)
  end.

(** A segment of capacity [N] that started with both indices at [h0] and
    has since taken [j] values and given none back. *)
Definition counted (h0 N j : Z) (d : poolDequeue) : Prop :=
  unpack (headTail d) = (uint32 (h0 + j), h0) ∧ len d = N.

(** ... and whose positions still to be written are empty. *)
Definition loaded (h0 N j : Z) (d : poolDequeue) : Prop :=
  counted h0 N j d
  ∧ ∀ i, j <= i < N → vals d !! Z.to_nat ((h0 + i) mod N) = Some 0.

(** ** The segment chain *)

(** The capacity of the [i]-th segment a chain allocates. *)
Definition nthCapacity (i : nat) : Z :=
  Z.min (Chain.initSize * 2 ^ Z.of_nat i) dequeueLimit.

(** A growth event: the chain has a newest segment and that segment's
    [pushHead] returns false, so [poolChain.pushHead] allocates. *)
Definition grows (val : T) (c : Chain.poolChain) : bool :=
  match Chain.head c with
  | None => false
  | Some d =>
      match Dequeue.pushHead val d with
      | (Returns false, _) => true
      | _ => false
      end
  end.

(** Consecutive [poolChain.pushHead] calls, up to the first that does not
    return, with the number of growth events among them. *)
Fixpoint pushRun (vs : list T) (c : Chain.poolChain) : nat * Chain.poolChain :=
  match vs with
  | [] => (O, c)
  | v :: vs' =>
      let g := if grows v c then 1%nat else O in
      match Chain.pushHead v c with
      | (Returns _, c1) => let '(n, c2) := pushRun vs' c1 in ((g + n)%nat, c2)
      | (_, c1) => (g, c1)
      end
  end.

(** ** The pool *)

(** A computation that leaves [victimSize] alone. *)
Definition keepsVictimSize {A : Type} (m : M Pool A) : Prop :=
  ∀ p, victimSize (snd (m p)) = victimSize p.

(** One worker, pinned to index 0, on a host with one worker context. *)
Definition oneWorker : runtime := mkRuntime 0 1.

(** A pool whose current generation is one empty [poolLocal]. *)
Definition idlePool : Pool :=
  mkPool None (Some [mkLocal 0 (Chain.mkChain [])]) 1 None 0.

(** The same with a victim generation of one empty [poolLocal]. *)
Definition idlePoolWithVictim : Pool :=
  mkPool None (Some [mkLocal 0 (Chain.mkChain [])]) 1
              (Some [mkLocal 0 (Chain.mkChain [])]) 1.

(** One value pushed into a segment of eight slots. *)
Definition oneValueSegment : poolDequeue :=
  mkDequeue (pack 1 0) [7; 0; 0; 0; 0; 0; 0; 0].

(** ** The registry *)

(** Pools for the examples. *)
Definition samplePool1 : Pool :=
  mkPool None (Some [mkLocal 7 (Chain.mkChain [])]) 1
              (Some [mkLocal 8 (Chain.mkChain [])]) 1.
Definition samplePool2 : Pool :=
  mkPool None None 0 (Some [mkLocal 9 (Chain.mkChain [])]) 1.
Definition samplePool3 : Pool :=
  mkPool None (Some [mkLocal 5 (Chain.mkChain [])]) 1 None 0.

(** The registry when the program starts: the pools that exist, no
    receiver variable escaped yet, both slices nil. *)
Definition newRegistry (h : gmap nat Pool) : registry := mkRegistry h [] [] [].

(** One pool, at address 1, that was never used. *)
Definition startRegistry : registry := newRegistry (<[1%nat := newPool None]> ∅).

(** The registries the program reaches from its start by calls of [Put]
    and [Get] on its pools and by decay steps. *)
Inductive reachable : registry → Prop :=
| reach_start (h : gmap nat Pool) : reachable (newRegistry h)
| reach_Put (rt : runtime) (a : nat) (x : T) (r : registry) :
    reachable r → reachable (snd (PutAt rt a x r))
| reach_Get (rt : runtime) (a : nat) (r : registry) :
    reachable r → reachable (snd (GetAt rt a r))
| reach_poolCleanup (r : registry) :
    reachable r → reachable (poolCleanup r).


(** An entry that is the address of a receiver variable. *)
Definition isReceiverVar (q : poolPtr) : Prop :=
  match q with
  | ReceiverVar _ => True
  | PoolAt _ => False
  end.

(** Both slices hold addresses of receiver variables only. *)
Definition receiversOnly (r : registry) : Prop :=
  Forall isReceiverVar (allPools r) ∧ Forall isReceiverVar (oldPools r).

(** A registry whose slices were set by hand to the addresses of pools:
    pool 1 is in both slices, pool 2 only in [oldPools], pool 3 in
    neither. *)
Definition handSetRegistry : registry :=
  mkRegistry
    (<[1%nat := samplePool1]> (<[2%nat := samplePool2]> (<[3%nat := samplePool3]> ∅)))
    [] [PoolAt 1] [PoolAt 1; PoolAt 2].

(** ** Well-formed states *)

(** A segment as the chain builds and keeps it: within capacity, with at
    least one slot and at most [dequeueLimit], and a packed word that is a
    [uint64]. *)
Definition segment_ok (d : poolDequeue) : Prop :=
  within_capacity d ∧ 0 < len d <= dequeueLimit ∧ 0 <= headTail d < 2 ^ 64.

Definition chain_ok (c : Chain.poolChain) : Prop :=
  Forall segment_ok (Chain.segs c).

(** A segment that holds no value. *)
Definition drained (d : poolDequeue) : Prop := headOf d = tailOf d.

(** An array pointer with its size field: nil with size 0, or an array
    that has at least [size] elements, each with a well-formed chain. *)
Definition generation_ok (arr : option (list poolLocal)) (size : Z) : Prop :=
  match arr with
  | None => size = 0
  | Some a =>
      0 <= size <= Z.of_nat (length a)
      ∧ Forall (λ l, chain_ok (shared l)) a
  end.

Definition pool_ok (p : Pool) : Prop :=
  generation_ok (local p) (localSize p)
  ∧ generation_ok (victim p) (victimSize p).

(** The scheduler answers a worker index below [GOMAXPROCS]. *)
Definition runtime_ok (rt : runtime) : Prop :=
  0 <= procPin rt < GOMAXPROCS rt ∧ GOMAXPROCS rt < 2 ^ 62.

(** A computation that keeps a property of the state, whatever its
    outcome. *)
Definition keeps {S A : Type} (P : S → Prop) (m : M S A) : Prop :=
  ∀ s, P s → P (snd (m s)).

(** A new [poolLocal]: the zero value. *)
Definition emptyLocal : poolLocal := mkLocal zeroValue (Chain.mkChain []).

(** The end of [Get]: the factory's value in place of the zero value. *)
Definition orNew (x : T) : M Pool T :=
  λ p, match New p with
       | Some new => if isNil x then (Returns (new tt), p) else (Returns x, p)
       | None => (Returns x, p)
       end.

(** The pool [pinSlow] leaves when it allocates: [n] empty locals, with
    the factory and the victim generation [f], [v], [vs] as they were. *)
Definition allocated (f : option (unit → T)) (n : Z)
    (v : option (list poolLocal)) (vs : Z) : Pool :=
  mkPool f (Some (replicate (Z.to_nat n) emptyLocal)) n v vs.

(** Consecutive [popHead] calls on a segment, with the outcome of each. *)
Fixpoint popHeads (n : nat) (d : poolDequeue)
  : list (outcome (T * bool)) * poolDequeue :=
  match n with
  | O => ([], d)
  | S n' =>
      let '(r, d1) := Dequeue.popHead d in
      let '(rs, d2) := popHeads n' d1 in
      (r :: rs, d2)
  end.

(** * Properties *)

#[global] Arguments unpack : simpl never.
#[global] Arguments pack : simpl never.
#[global] Arguments uint32 : simpl never.
#[global] Arguments uint64 : simpl never.
#[global] Arguments uintptr : simpl never.
#[global] Arguments int : simpl never.
#[global] Arguments mask : simpl never.

(** Goals of wrap-around arithmetic, once the moduli are numerals. *)
Ltac wrap_arith :=
  unfold uint32, uint64, uintptr, int in *;
  change (2 ^ 64) with 18446744073709551616 in *;
  change (2 ^ 63) with 9223372036854775808 in *;
  change (2 ^ 32) with 4294967296 in *;
  Z.div_mod_to_equations; lia.

(** ** Packing and unpacking, as arithmetic *)

Lemma mask_ones : mask = Z.ones 32.
Proof. reflexivity. Qed.

Lemma land_mask (z : Z) : Z.land z mask = z mod 2 ^ 32.
Proof. rewrite mask_ones. apply Z.land_ones. lia. Qed.

Lemma unpack_arith (ptrs : Z) :
  unpack ptrs = ((ptrs / 2 ^ 32) mod 2 ^ 32, ptrs mod 2 ^ 32).
Proof.
  unfold unpack, uint32, dequeueBits.
  rewrite !land_mask, Z.shiftr_div_pow2 by lia.
  rewrite !Z.mod_mod by lia. reflexivity.
Qed.

(** The shifted head half and the tail half share no bit. *)
Lemma shifted_low_disjoint (x y : Z) :
  Z.land (x * 2 ^ 32) (y mod 2 ^ 32) = 0.
Proof.
  rewrite <- Z.shiftl_mul_pow2, <- Z.land_ones by lia.
  apply Z.bits_inj'. intros n Hn.
  rewrite !Z.land_spec, Z.bits_0.
  destruct (Z.lt_ge_cases n 32) as [Hlt | Hge].
  - rewrite Z.shiftl_spec_low by lia. reflexivity.
  - rewrite Z.ones_spec_high by lia.
    rewrite !Bool.andb_false_r. reflexivity.
Qed.

Lemma pack_arith (head tail : Z) :
  pack head tail = (head mod 2 ^ 32) * 2 ^ 32 + tail mod 2 ^ 32.
Proof.
  unfold pack, uint64, dequeueBits.
  rewrite land_mask, Z.shiftl_mul_pow2 by lia.
  replace ((head * 2 ^ 32) mod 2 ^ 64) with ((head mod 2 ^ 32) * 2 ^ 32)
    by (change (2 ^ 64) with (2 ^ 32 * 2 ^ 32);
        rewrite Z.mul_mod_distr_r by discriminate; reflexivity).
  symmetry. apply Z.add_nocarry_lor, shifted_low_disjoint.
Qed.

Lemma unpack_pack (head tail : Z) :
  unpack (pack head tail) = (head mod 2 ^ 32, tail mod 2 ^ 32).
Proof. rewrite unpack_arith, pack_arith. f_equal; wrap_arith. Qed.

Lemma unpack_range (ptrs : Z) :
  0 <= fst (unpack ptrs) < 2 ^ 32 ∧ 0 <= snd (unpack ptrs) < 2 ^ 32.
Proof. rewrite unpack_arith. cbn [fst snd]. wrap_arith. Qed.

(** [headTail.Add(1 << dequeueBits)] advances the head half and leaves the
    tail half alone, also when the head wraps around. *)
Lemma unpack_add_head (ptrs : Z) :
  unpack (uint64 (ptrs + 1 ≪ dequeueBits))
  = (uint32 (fst (unpack ptrs) + 1), snd (unpack ptrs)).
Proof.
  rewrite !unpack_arith. unfold dequeueBits. cbn [fst snd].
  change (1 ≪ 32) with 4294967296. f_equal; wrap_arith.
Qed.

Lemma unpack_indices (d : poolDequeue) (head tail : Z) :
  unpack (headTail d) = (head, tail) →
  headOf d = head ∧ tailOf d = tail ∧ 0 <= head < 2 ^ 32 ∧ 0 <= tail < 2 ^ 32.
Proof.
  intros E. pose proof (unpack_range (headTail d)) as R.
  unfold headOf, tailOf. rewrite E in *. cbn [fst snd] in *. lia.
Qed.

(** C10: for 32-bit indices [head] and [tail], unpacking the packed word
    gives the pair back: [unpack (pack head tail) = (head, tail)]. *)
Theorem unpack_pack_roundtrip (head tail : Z) :
  0 <= head < 2 ^ 32 → 0 <= tail < 2 ^ 32 →
  unpack (pack head tail) = (head, tail).
Proof.
  intros Hh Ht. rewrite unpack_pack, !Z.mod_small by assumption. reflexivity.
Qed.

Lemma unpack_pack_roundtrip_witness :
  unpack (pack (2 ^ 32 - 500) 7) = (2 ^ 32 - 500, 7).
Proof. apply unpack_pack_roundtrip; lia. Defined.

(** ** The ring segment *)

Lemma CompareAndSwap_own (new : Z) (d : poolDequeue) :
  CompareAndSwap (headTail d) new d = (true, mkDequeue new (vals d)).
Proof. unfold CompareAndSwap. rewrite Z.eqb_refl. reflexivity. Qed.

(** The retry budget does not matter to a goroutine running alone: the
    first attempt decides. *)
Lemma popHead_loop_budget (n : nat) (d : poolDequeue) :
  popHead_loop (S n) d = popHead_loop 1 d.
Proof.
  cbn [popHead_loop]. destruct (unpack (headTail d)) as [head tail].
  destruct (tail =? head); [reflexivity |].
  rewrite CompareAndSwap_own. reflexivity.
Qed.

Lemma popTail_loop_budget (n : nat) (d : poolDequeue) :
  popTail_loop (S n) d = popTail_loop 1 d.
Proof.
  cbn [popTail_loop]. destruct (unpack (headTail d)) as [head tail].
  destruct (tail =? head); [reflexivity |].
  rewrite CompareAndSwap_own. reflexivity.
Qed.

(** *** Popping *)

Lemma popHead_loop_empty (budget : nat) (d : poolDequeue) :
  headOf d = tailOf d → popHead_loop (S budget) d = (Panics, d).
Proof.
  intros Heq. cbn [popHead_loop].
  destruct (unpack (headTail d)) as [head tail] eqn:E.
  destruct (unpack_indices d head tail E) as (Hh & Ht & _).
  replace (tail =? head) with true by (symmetry; apply Z.eqb_eq; congruence).
  reflexivity.
Qed.

Lemma popTail_loop_empty (budget : nat) (d : poolDequeue) :
  headOf d = tailOf d →
  popTail_loop (S budget) d = (Returns (zeroValue, false), d).
Proof.
  intros Heq. cbn [popTail_loop].
  destruct (unpack (headTail d)) as [head tail] eqn:E.
  destruct (unpack_indices d head tail E) as (Hh & Ht & _).
  replace (tail =? head) with true by (symmetry; apply Z.eqb_eq; congruence).
  reflexivity.
Qed.

(** C3: on a segment whose head index equals its tail index, [popHead]
    does not return a failure indication: it panics (it evaluates
    [*zero] for a nil [zero]) and leaves the segment as it was.  On the
    same segment [popTail] does return the zero value and false. *)
Theorem popHead_empty_panics (budget : nat) (d : poolDequeue) :
  headOf d = tailOf d →
  popHead_loop (S budget) d = (Panics, d)
  ∧ popTail_loop (S budget) d = (Returns (zeroValue, false), d).
Proof.
  intros Heq. split.
  - apply popHead_loop_empty, Heq.
  - apply popTail_loop_empty, Heq.
Qed.

Lemma popHead_empty_panics_witness :
  headOf (newElt 8) = tailOf (newElt 8)
  ∧ popHead_loop 1 (newElt 8) = (Panics, newElt 8)
  ∧ popTail_loop 1 (newElt 8) = (Returns (0, false), newElt 8).
Proof. split; [reflexivity | apply popHead_empty_panics; reflexivity]. Defined.

(** C2: on a segment that is not empty, [popTail] wins its CAS and then
    panics (it stores through the slot pointer it has just set to nil):
    the tail index has advanced, nothing is returned and no slot is
    cleared. *)
Theorem popTail_nonempty_panics (budget : nat) (d : poolDequeue) :
  headOf d ≠ tailOf d →
  ∃ d', popTail_loop (S budget) d = (Panics, d')
        ∧ vals d' = vals d
        ∧ headOf d' = headOf d
        ∧ tailOf d' = uint32 (tailOf d + 1).
Proof.
  intros Hne. cbn [popTail_loop].
  destruct (unpack (headTail d)) as [head tail] eqn:E.
  destruct (unpack_indices d head tail E) as (Hh & Ht & Rh & Rt).
  replace (tail =? head) with false by (symmetry; apply Z.eqb_neq; congruence).
  rewrite CompareAndSwap_own.
  exists (mkDequeue (pack head (uint32 (tail + 1))) (vals d)).
  split; [| split; [reflexivity |]].
  - destruct (slotAt _ _) as [[slot val] |]; [| reflexivity].
    destruct (isNil val); reflexivity.
  - unfold headOf, tailOf. cbn [headTail]. rewrite unpack_pack, E.
    cbn [fst snd]. split; wrap_arith.
Qed.

Lemma popTail_nonempty_panics_witness :
  headOf oneValueSegment ≠ tailOf oneValueSegment
  ∧ ∃ d', popTail_loop 1 oneValueSegment = (Panics, d')
          ∧ vals d' = [7; 0; 0; 0; 0; 0; 0; 0]
          ∧ headOf d' = 1
          ∧ tailOf d' = 1.
Proof.
  split; [vm_compute; discriminate |].
  apply (popTail_nonempty_panics 0 oneValueSegment).
  vm_compute; discriminate.
Defined.

(** *** Occupancy *)

Lemma within_capacity_fresh (ptrs : Z) (n : Z) :
  fst (unpack ptrs) = snd (unpack ptrs) →
  within_capacity (mkDequeue ptrs (makeVals n)).
Proof.
  intros E. unfold within_capacity, occupancy, headOf, tailOf, len.
  cbn [headTail vals]. rewrite E, Z.sub_diag. change (uint32 0) with 0. lia.
Qed.

Lemma pushHead_within_capacity (val : T) (d : poolDequeue) :
  within_capacity d → within_capacity (snd (pushHead val d)).
Proof.
  intros Hinv. unfold pushHead.
  destruct (unpack (headTail d)) as [head tail] eqn:E.
  destruct (unpack_indices d head tail E) as (Hh & Ht & Rh & Rt).
  destruct (_ =? head) eqn:Hfull; [exact Hinv |].
  destruct (slotAt d _) as [[slot w] |]; [| exact Hinv].
  destruct (negb (w =? 0)); [exact Hinv |].
  destruct (isNil val); [exact Hinv |].
  cbn [snd]. apply Z.eqb_neq in Hfull. rewrite land_mask in Hfull.
  unfold within_capacity, occupancy, headOf, tailOf, len in *.
  cbn [headTail vals].
  rewrite unpack_add_head, E, length_insert in *. cbn [fst snd] in *.
  wrap_arith.
Qed.

Lemma popHead_loop_within_capacity (budget : nat) (d : poolDequeue) :
  within_capacity d → within_capacity (snd (popHead_loop budget d)).
Proof.
  intros Hinv. destruct budget as [| n]; [exact Hinv |].
  cbn [popHead_loop].
  destruct (unpack (headTail d)) as [head tail] eqn:E.
  destruct (unpack_indices d head tail E) as (Hh & Ht & Rh & Rt).
  destruct (tail =? head) eqn:Hempty; [exact Hinv |].
  rewrite CompareAndSwap_own. apply Z.eqb_neq in Hempty.
  assert (Hd1 : within_capacity
                  (mkDequeue (pack (uint32 (head - 1)) tail) (vals d))).
  { unfold within_capacity, occupancy, headOf, tailOf, len in *.
    cbn [headTail vals]. rewrite unpack_pack, E in *.
    cbn [fst snd] in *. wrap_arith. }
  destruct (slotAt _ _) as [[slot val] |]; [| exact Hd1].
  destruct (isNil val); [exact Hd1 |].
  cbn [snd]. unfold within_capacity, occupancy, headOf, tailOf, len in *.
  cbn [headTail vals] in *. rewrite length_insert. exact Hd1.
Qed.

Lemma popTail_loop_within_capacity (budget : nat) (d : poolDequeue) :
  within_capacity d → within_capacity (snd (popTail_loop budget d)).
Proof.
  intros Hinv. destruct budget as [| n]; [exact Hinv |].
  cbn [popTail_loop].
  destruct (unpack (headTail d)) as [head tail] eqn:E.
  destruct (unpack_indices d head tail E) as (Hh & Ht & Rh & Rt).
  destruct (tail =? head) eqn:Hempty; [exact Hinv |].
  rewrite CompareAndSwap_own. apply Z.eqb_neq in Hempty.
  assert (Hd1 : within_capacity
                  (mkDequeue (pack head (uint32 (tail + 1))) (vals d))).
  { unfold within_capacity, occupancy, headOf, tailOf, len in *.
    cbn [headTail vals]. rewrite unpack_pack, E in *.
    cbn [fst snd] in *. wrap_arith. }
  destruct (slotAt _ _) as [[slot val] |]; [| exact Hd1].
  destruct (isNil val); exact Hd1.
Qed.

(** C7: [head - tail] modulo [2^32] lies between 0 and the capacity in a
    newly built segment (by [NewPoolDequeue] or as a chain element), and
    [pushHead], [popHead] and [popTail] each keep it there, whatever
    their outcome and retry budget. *)
Theorem occupancy_within_capacity :
  (∀ n, within_capacity (NewPoolDequeue n))
  ∧ (∀ n, within_capacity (newElt n))
  ∧ (∀ d, within_capacity d →
       (∀ val, within_capacity (snd (pushHead val d)))
       ∧ (∀ budget, within_capacity (snd (popHead_loop budget d)))
       ∧ (∀ budget, within_capacity (snd (popTail_loop budget d)))).
Proof.
  split; [| split].
  - intros n. apply within_capacity_fresh. reflexivity.
  - intros n. apply within_capacity_fresh. reflexivity.
  - intros d Hinv. split; [| split]; intros.
    + apply pushHead_within_capacity, Hinv.
    + apply popHead_loop_within_capacity, Hinv.
    + apply popTail_loop_within_capacity, Hinv.
Qed.

Lemma occupancy_within_capacity_witness :
  within_capacity (snd (pushHead 7 (NewPoolDequeue 8)))
  ∧ within_capacity (snd (popHead_loop 1 (snd (pushHead 7 (NewPoolDequeue 8)))))
  ∧ within_capacity (snd (popTail_loop 1 (snd (pushHead 7 (NewPoolDequeue 8))))).
Proof.
  destruct occupancy_within_capacity as (Hnew & _ & Hstep).
  destruct (Hstep (NewPoolDequeue 8) (Hnew 8)) as (Hpush & _).
  destruct (Hstep _ (Hpush 7)) as (_ & HpopH & HpopT).
  split; [apply Hpush | split; [apply HpopH | apply HpopT]].
Defined.

(** *** Filling a new segment *)

Lemma counted_fresh (ptrs h0 N : Z) :
  0 <= N → unpack ptrs = (h0, h0) → 0 <= h0 < 2 ^ 32 →
  counted h0 N 0 (mkDequeue ptrs (makeVals N)).
Proof.
  intros HN E Hh. unfold counted, len, makeVals. cbn [headTail vals].
  rewrite E, length_replicate, Z.add_0_r. unfold uint32.
  rewrite Z.mod_small by lia. split; [reflexivity | lia].
Qed.

Lemma counted_new (n : Z) (d0 : poolDequeue) :
  0 <= n → d0 = NewPoolDequeue n ∨ d0 = newElt n →
  ∃ h0, 0 <= h0 < 2 ^ 32 ∧ counted h0 n 0 d0.
Proof.
  intros Hn [-> | ->].
  - exists (2 ^ 32 - 500). split; [lia |].
    apply counted_fresh; [lia | reflexivity | lia].
  - exists 0. split; [lia |].
    apply counted_fresh; [lia | reflexivity | lia].
Qed.

(** A successful [pushHead] advances the head by one. *)
Lemma pushHead_counted (h0 N j : Z) (v : T) (d d' : poolDequeue) :
  counted h0 N j d → pushHead v d = (Returns true, d') →
  counted h0 N (j + 1) d'.
Proof.
  intros (E & Hlen). unfold pushHead. rewrite E.
  destruct (_ =? uint32 (h0 + j)); [discriminate |].
  destruct (slotAt d _) as [[slot w] |]; [| discriminate].
  destruct (negb (w =? 0)); [discriminate |].
  destruct (isNil v); [discriminate |].
  intros [= <-]. unfold counted, len in *. cbn [headTail vals].
  rewrite unpack_add_head, E, length_insert. cbn [fst snd].
  split; [f_equal; wrap_arith | exact Hlen].
Qed.

Lemma pushAll_counted (h0 N : Z) (vs : list T) :
  ∀ j d, counted h0 N j d →
    fst (pushAll vs d) = replicate (length vs) (Returns true) →
    counted h0 N (j + Z.of_nat (length vs)) (snd (pushAll vs d)).
Proof.
  induction vs as [| v vs IH]; intros j d Hd Hall.
  - cbn [pushAll length snd]. rewrite Z.add_0_r. exact Hd.
  - cbn [pushAll length replicate] in *.
    destruct (pushHead v d) as [r d1] eqn:Hpush.
    specialize (IH (j + 1) d1).
    destruct (pushAll vs d1) as [rs d2]. cbn [fst snd] in *.
    injection Hall as -> Hrs.
    replace (j + Z.of_nat (S (length vs))) with (j + 1 + Z.of_nat (length vs)) by lia.
    apply IH; [| exact Hrs].
    eapply pushHead_counted; eassumption.
Qed.

(** With as many values taken as there are slots, [pushHead] refuses. *)
Lemma pushHead_counted_full (h0 N : Z) (v : T) (d : poolDequeue) :
  counted h0 N N d → pushHead v d = (Returns false, d).
Proof.
  intros (E & Hlen). unfold pushHead. rewrite E, Hlen, land_mask.
  replace (_ =? uint32 (h0 + N)) with true
    by (symmetry; apply Z.eqb_eq; wrap_arith).
  reflexivity.
Qed.

Lemma ring_positions_differ (N h i j : Z) :
  0 <= i < N → 0 <= j < N → (h + i) mod N = (h + j) mod N → i = j.
Proof.
  intros Hi Hj E.
  assert (Hji : (j - i) mod N = 0).
  { replace (j - i) with ((h + j) - (h + i)) by lia.
    rewrite Zminus_mod, E, Z.sub_diag. apply Zmod_0_l. }
  assert (Hij : (i - j) mod N = 0).
  { replace (i - j) with ((h + i) - (h + j)) by lia.
    rewrite Zminus_mod, E, Z.sub_diag. apply Zmod_0_l. }
  destruct (Z.lt_trichotomy i j) as [Hlt | [Heq | Hgt]]; [| exact Heq |].
  - rewrite Z.mod_small in Hji by lia. lia.
  - rewrite Z.mod_small in Hij by lia. lia.
Qed.

Lemma pow2_bounds (k : Z) : 0 <= k <= 31 → 1 <= 2 ^ k <= 2 ^ 31.
Proof.
  intros Hk. split.
  - change 1 with (2 ^ 0). apply Z.pow_le_mono_r; lia.
  - apply Z.pow_le_mono_r; lia.
Qed.

(** With a power-of-two capacity, masking by [len - 1] is the remainder
    by the capacity. *)
Lemma ring_index (k x : Z) :
  0 <= k <= 31 →
  Z.land (uint32 x) (uint32 (2 ^ k - 1)) = x mod 2 ^ k.
Proof.
  intros Hk. pose proof (pow2_bounds k Hk) as HN.
  replace (uint32 (2 ^ k - 1)) with (Z.ones k).
  - rewrite Z.land_ones by lia. unfold uint32.
    apply Z.mod_mod_divide. exists (2 ^ (32 - k)).
    rewrite <- Z.pow_add_r by lia. f_equal. lia.
  - rewrite Z.ones_equiv. unfold uint32.
    change (2 ^ 31) with 2147483648 in HN.
    rewrite Z.mod_small; lia.
Qed.

Lemma loaded_fresh (h0 N : Z) (ptrs : Z) :
  counted h0 N 0 (mkDequeue ptrs (makeVals N)) → 0 <= N →
  loaded h0 N 0 (mkDequeue ptrs (makeVals N)).
Proof.
  intros Hc HN. split; [exact Hc |]. unfold makeVals. cbn [vals].
  intros i Hi. apply lookup_replicate_2.
  pose proof (Z.mod_pos_bound (h0 + i) N). lia.
Qed.

(** On a segment of capacity [2^k] with room left, [pushHead] of a
    non-zero value finds its slot empty and succeeds. *)
Lemma pushHead_loaded (k h0 j : Z) (v : T) (d : poolDequeue) :
  0 <= k <= 31 → 0 <= h0 < 2 ^ 32 → 0 <= j < 2 ^ k → v ≠ 0 →
  loaded h0 (2 ^ k) j d →
  ∃ d', pushHead v d = (Returns true, d') ∧ loaded h0 (2 ^ k) (j + 1) d'.
Proof.
  intros Hk Hh Hj Hv (Hc & Hfree).
  pose proof Hc as (E & Hlen).
  pose proof (pow2_bounds k Hk) as HN. change (2 ^ 31) with 2147483648 in HN.
  assert (Hpush : pushHead v d
            = (Returns true,
               mkDequeue (uint64 (headTail d + 1 ≪ dequeueBits))
                         (<[Z.to_nat ((h0 + j) mod 2 ^ k) := v]> (vals d)))).
  { unfold pushHead. rewrite E, Hlen, land_mask, ring_index by assumption.
    replace (_ =? uint32 (h0 + j)) with false
      by (symmetry; apply Z.eqb_neq; wrap_arith).
    unfold slotAt. rewrite (Hfree j) by lia. cbn [fmap option_fmap option_map].
    change (negb (0 =? 0)) with false. cbv iota.
    replace (isNil v) with false by (symmetry; apply Z.eqb_neq; exact Hv).
    reflexivity. }
  eexists. split; [exact Hpush |].
  split; [eapply pushHead_counted; eassumption |].
  cbn [vals]. intros i Hi.
  rewrite list_lookup_insert_ne; [apply Hfree; lia |].
  intros Heq. apply Z2Nat.inj in Heq;
    try (apply Z.mod_pos_bound; lia).
  apply ring_positions_differ in Heq; lia.
Qed.

Lemma pushAll_loaded (k h0 : Z) (vs : list T) :
  0 <= k <= 31 → 0 <= h0 < 2 ^ 32 → Forall (λ v, v ≠ 0) vs →
  ∀ j d, 0 <= j → j + Z.of_nat (length vs) <= 2 ^ k →
    loaded h0 (2 ^ k) j d →
    fst (pushAll vs d) = replicate (length vs) (Returns true).
Proof.
  intros Hk Hh Hvs. induction Hvs as [| v vs Hv _ IH]; intros j d Hj Hroom Hd.
  - reflexivity.
  - cbn [length] in *. cbn [pushAll].
    destruct (pushHead_loaded k h0 j v d) as (d1 & Hpush & Hd1);
      [assumption | assumption | lia | assumption | assumption |].
    rewrite Hpush.
    specialize (IH (j + 1) d1).
    destruct (pushAll vs d1) as [rs d2]. cbn [fst snd] in *.
    cbn [replicate]. f_equal. apply IH; [lia | lia | exact Hd1].
Qed.

(** C6: take a new segment of capacity [n], built by [NewPoolDequeue] or
    as a chain element, and [n] calls of [pushHead] on it.  If they all
    return true, one more call returns false and leaves the slots, the
    head index and the tail index as they were.  And they do all return
    true when [n] is a power of two and the values are not zero. *)
Theorem pushHead_full_segment (n : Z) (d0 : poolDequeue) (vs : list T) (v : T) :
  d0 = NewPoolDequeue n ∨ d0 = newElt n →
  Z.of_nat (length vs) = n →
  (fst (pushAll vs d0) = replicate (length vs) (Returns true) →
   pushHead v (snd (pushAll vs d0)) = (Returns false, snd (pushAll vs d0)))
  ∧ ((∃ k, 0 <= k <= 31 ∧ n = 2 ^ k) → Forall (λ x, x ≠ 0) vs →
     fst (pushAll vs d0) = replicate (length vs) (Returns true)).
Proof.
  intros Hd0 Hlen.
  destruct (counted_new n d0) as (h0 & Hh & Hc); [lia | exact Hd0 |].
  split.
  - intros Hall. apply (pushHead_counted_full h0 n).
    pose proof (pushAll_counted h0 n vs 0 d0 Hc Hall) as Hfull.
    rewrite Z.add_0_l, Hlen in Hfull. exact Hfull.
  - intros (k & Hk & ->) Hvs.
    apply (pushAll_loaded k h0 vs Hk Hh Hvs 0 d0); [lia | lia |].
    pose proof (pow2_bounds k Hk).
    destruct Hd0 as [-> | ->]; apply loaded_fresh; (exact Hc || lia).
Qed.

Lemma pushHead_full_segment_witness :
  fst (pushAll [1; 2; 3; 4] (NewPoolDequeue 4)) = replicate 4 (Returns true)
  ∧ pushHead 5 (snd (pushAll [1; 2; 3; 4] (NewPoolDequeue 4)))
    = (Returns false, snd (pushAll [1; 2; 3; 4] (NewPoolDequeue 4))).
Proof.
  destruct (pushHead_full_segment 4 (NewPoolDequeue 4) [1; 2; 3; 4] 5)
    as (Hfull & Hall); [left; reflexivity | reflexivity |].
  assert (Htrue : fst (pushAll [1; 2; 3; 4] (NewPoolDequeue 4))
                  = replicate 4 (Returns true)).
  { apply Hall; [exists 2; split; [lia | reflexivity] |].
    repeat constructor; discriminate. }
  split; [exact Htrue | exact (Hfull Htrue)].
Defined.

(** ** The segment chain *)

Lemma pushHead_len (val : T) (d : poolDequeue) :
  len (snd (Dequeue.pushHead val d)) = len d.
Proof.
  unfold Dequeue.pushHead.
  destruct (unpack (headTail d)) as [head tail].
  destruct (_ =? head); [reflexivity |].
  destruct (slotAt d _) as [[slot w] |]; [| reflexivity].
  destruct (negb (w =? 0)); [reflexivity |].
  destruct (isNil val); [reflexivity |].
  unfold len. cbn [snd vals]. rewrite length_insert. reflexivity.
Qed.

Lemma pushHead_false_same (val : T) (d d' : poolDequeue) :
  Dequeue.pushHead val d = (Returns false, d') → d' = d.
Proof.
  unfold Dequeue.pushHead.
  destruct (unpack (headTail d)) as [head tail].
  destruct (_ =? head); [congruence |].
  destruct (slotAt d _) as [[slot w] |]; [| congruence].
  destruct (negb (w =? 0)); [congruence |].
  destruct (isNil val); congruence.
Qed.

Lemma newElt_len (n : Z) : 0 <= n → len (newElt n) = n.
Proof.
  intros Hn. unfold len, newElt, makeVals. cbn [vals].
  rewrite length_replicate. lia.
Qed.

(** A segment that has just been allocated with [initSize] slots does not
    refuse a value. *)
Lemma pushHead_newElt_init (val : T) (d' : poolDequeue) :
  Dequeue.pushHead val (newElt Chain.initSize) ≠ (Returns false, d').
Proof.
  unfold Dequeue.pushHead. change (unpack (headTail (newElt Chain.initSize))) with (0, 0).
  cbv iota beta.
  change (Z.land (uint32 (0 + uint32 (len (newElt Chain.initSize)))) mask =? 0) with false.
  cbv iota.
  change (slotAt (newElt Chain.initSize)
            (Z.land 0 (uint32 (len (newElt Chain.initSize) - 1))))
    with (Some (O, 0)).
  cbv iota beta. change (negb (0 =? 0)) with false. cbv iota.
  destruct (isNil val); discriminate.
Qed.

Lemma nthCapacity_range (i : nat) : 0 < nthCapacity i <= dequeueLimit.
Proof.
  unfold nthCapacity, Chain.initSize.
  assert (0 < 2 ^ Z.of_nat i) by (apply Z.pow_pos_nonneg; lia).
  change dequeueLimit with 1073741824. lia.
Qed.

Lemma nthCapacity_double (i : nat) :
  nthCapacity (S i) = Z.min (2 * nthCapacity i) dequeueLimit.
Proof.
  unfold nthCapacity, Chain.initSize.
  rewrite Nat2Z.inj_succ, Z.pow_succ_r by lia.
  assert (0 < 2 ^ Z.of_nat i) by (apply Z.pow_pos_nonneg; lia).
  change dequeueLimit with 1073741824. lia.
Qed.

(** The size [poolChain.pushHead] computes for a new segment. *)
Lemma newSize_min (n : Z) :
  0 <= n < 2 ^ 62 →
  (if int (n ≪ 1) >=? dequeueLimit then dequeueLimit else int (n ≪ 1))
  = Z.min (2 * n) dequeueLimit.
Proof.
  intros Hn. rewrite Z.shiftl_mul_pow2 by lia. change (2 ^ 1) with 2.
  change (2 ^ 62) with 4611686018427387904 in Hn.
  replace (int (n * 2)) with (2 * n) by wrap_arith.
  change dequeueLimit with 1073741824.
  destruct (_ >=? _) eqn:C; lia.
Qed.

Lemma capacities_snoc (ds : list poolDequeue) (d : poolDequeue) :
  Chain.capacities (Chain.mkChain (ds ++ [d]))
  = Chain.capacities (Chain.mkChain ds) ++ [len d].
Proof. unfold Chain.capacities. cbn [Chain.segs]. rewrite fmap_app. reflexivity. Qed.

(** One [poolChain.pushHead] on any chain that has a newest segment [d]:
    a growth event appends a segment of [min (2 * len d) dequeueLimit]
    slots, and nothing else changes the capacities. *)
Lemma chain_pushHead_step (val : T) (c : Chain.poolChain)
    (init : list poolDequeue) (d : poolDequeue) :
  Chain.segs c = init ++ [d] → len d < 2 ^ 62 →
  Chain.capacities (snd (Chain.pushHead val c))
  = Chain.capacities c
    ++ (if grows val c then [Z.min (2 * len d) dequeueLimit] else []).
Proof.
  intros Hsegs Hsmall. destruct c as [ds]. cbn [Chain.segs] in Hsegs. subst ds.
  assert (Hpos : 0 <= len d) by (unfold len; lia).
  unfold grows, Chain.pushHead, Chain.head. cbn [Chain.segs].
  rewrite last_snoc.
  pose proof (pushHead_len val d) as Hlen.
  destruct (Dequeue.pushHead val d) as [[[|] | |] d'] eqn:Hpush; cbn [snd] in *.
  - unfold Chain.setHead. cbn [Chain.segs]. rewrite removelast_last.
    rewrite !capacities_snoc, Hlen, app_nil_r. reflexivity.
  - apply pushHead_false_same in Hpush as ->.
    unfold Chain.setHead. cbn [Chain.segs]. rewrite removelast_last.
    rewrite newSize_min by lia.
    set (newSize := Z.min (2 * len d) dequeueLimit).
    assert (HnewSize : 0 <= newSize)
      by (unfold newSize; change dequeueLimit with 1073741824; lia).
    pose proof (pushHead_len val (newElt newSize)) as Hlen2.
    rewrite newElt_len in Hlen2 by lia.
    destruct (Dequeue.pushHead val (newElt newSize)) as [[b | |] d2];
      cbn [snd] in *; unfold Chain.link; cbn [Chain.segs];
      rewrite (capacities_snoc (init ++ [d])), Hlen2; reflexivity.
  - unfold Chain.setHead. cbn [Chain.segs]. rewrite removelast_last.
    rewrite !capacities_snoc, Hlen, app_nil_r. reflexivity.
  - unfold Chain.setHead. cbn [Chain.segs]. rewrite removelast_last.
    rewrite !capacities_snoc, Hlen, app_nil_r. reflexivity.
Qed.

(** The same on a chain with [n + 1] segments of the expected
    capacities. *)
Lemma chain_pushHead_capacities (val : T) (c : Chain.poolChain) (n : nat) :
  Chain.capacities c = nthCapacity <$> seq 0 (S n) →
  Chain.capacities (snd (Chain.pushHead val c))
  = nthCapacity <$> seq 0 (S (if grows val c then S n else n)).
Proof.
  intros Hcaps.
  destruct (decide (Chain.segs c = [])) as [Hnil | Hne].
  { unfold Chain.capacities in Hcaps. rewrite Hnil in Hcaps. discriminate. }
  destruct (exists_last Hne) as (init & d & Hsegs).
  assert (Hd : len d = nthCapacity n).
  { destruct c as [ds]. cbn [Chain.segs] in Hsegs. subst ds.
    rewrite capacities_snoc, seq_S, fmap_app in Hcaps.
    apply app_inj_tail in Hcaps as [_ Hd]. exact Hd. }
  pose proof (nthCapacity_range n) as R.
  change dequeueLimit with 1073741824 in R.
  rewrite (chain_pushHead_step val c init d Hsegs), Hcaps, Hd
    by (change (2 ^ 62) with 4611686018427387904; lia).
  destruct (grows val c).
  - rewrite (seq_S (S n)), fmap_app, <- nthCapacity_double. reflexivity.
  - apply app_nil_r.
Qed.

Lemma pushRun_capacities (vs : list T) :
  ∀ (c : Chain.poolChain) (n : nat),
    Chain.capacities c = nthCapacity <$> seq 0 (S n) →
    Chain.capacities (snd (pushRun vs c))
    = nthCapacity <$> seq 0 (S (n + fst (pushRun vs c))).
Proof.
  induction vs as [| v vs IH]; intros c n Hcaps.
  - cbn [pushRun fst snd]. rewrite Nat.add_0_r. exact Hcaps.
  - cbn [pushRun].
    pose proof (chain_pushHead_capacities v c n Hcaps) as Hstep.
    destruct (Chain.pushHead v c) as [[u | |] c1]; cbn [snd] in Hstep.
    + specialize (IH c1 _ Hstep).
      destruct (pushRun vs c1) as [m c2]. cbn [fst snd] in *.
      rewrite IH. destruct (grows v c); do 3 f_equal; lia.
    + cbn [fst snd]. rewrite Hstep. destruct (grows v c); do 3 f_equal; lia.
    + cbn [fst snd]. rewrite Hstep. destruct (grows v c); do 3 f_equal; lia.
Qed.

(** The first [pushHead] on the empty chain allocates one segment of
    [initSize] slots and is not a growth event. *)
Lemma chain_pushHead_first (val : T) :
  Chain.capacities (snd (Chain.pushHead val (Chain.mkChain []))) = [nthCapacity 0]
  ∧ grows val (Chain.mkChain []) = false.
Proof.
  split; [| reflexivity].
  unfold Chain.pushHead, Chain.head. cbn [Chain.segs last].
  pose proof (pushHead_len val (newElt Chain.initSize)) as Hlen.
  pose proof (pushHead_newElt_init val) as Hno.
  destruct (Dequeue.pushHead val (newElt Chain.initSize)) as [[[|] | |] d'];
    cbn [snd] in *;
    try (unfold Chain.setHead, Chain.link, Chain.capacities;
         cbn [Chain.segs app removelast fmap list_fmap]; rewrite Hlen; reflexivity).
  exfalso. apply (Hno d'). reflexivity.
Qed.

(** C8: a chain that starts empty and takes a run of [pushHead] calls with
    [k] growth events among them holds [k + 1] segments whose capacities,
    oldest first, are [min (8 * 2^i) dequeueLimit] for [i = 0 .. k]:
    8, 16, 32, ..., each the double of the one before until
    [dequeueLimit = 2^30] is reached, and [dequeueLimit] from there on.
    On any chain, a growth event appends one segment of twice the
    capacity of the newest one, capped at [dequeueLimit], and a call
    without a growth event leaves the capacities alone. *)
Theorem chain_growth_doubles (vs : list T) :
  vs ≠ [] →
  Chain.capacities (snd (pushRun vs (Chain.mkChain [])))
  = nthCapacity <$> seq 0 (S (fst (pushRun vs (Chain.mkChain []))))
  ∧ (∀ i, nthCapacity i = Z.min (8 * 2 ^ Z.of_nat i) (2 ^ 30))
  ∧ (∀ i, nthCapacity (S i) = Z.min (2 * nthCapacity i) dequeueLimit)
  ∧ (∀ val c init d,
       Chain.segs c = init ++ [d] → len d <= dequeueLimit →
       Chain.capacities (snd (Chain.pushHead val c))
       = Chain.capacities c
         ++ (if grows val c then [Z.min (2 * len d) dequeueLimit] else [])).
Proof.
  intros Hvs. split; [| split; [| split]].
  - destruct vs as [| v vs]; [contradiction |].
    cbn [pushRun].
    destruct (chain_pushHead_first v) as (Hfirst & Hg). rewrite Hg.
    destruct (Chain.pushHead v (Chain.mkChain [])) as [[u | |] c1];
      cbn [snd fst] in *; try exact Hfirst.
    pose proof (pushRun_capacities vs c1 O Hfirst) as Hrun.
    destruct (pushRun vs c1) as [m c2]. cbn [fst snd] in *. exact Hrun.
  - intros i. reflexivity.
  - apply nthCapacity_double.
  - intros val c init d Hsegs Hd. apply (chain_pushHead_step val c init d Hsegs).
    change dequeueLimit with 1073741824 in Hd.
    change (2 ^ 62) with 4611686018427387904. lia.
Qed.

Lemma chain_growth_doubles_witness :
  Chain.capacities (snd (pushRun (Z.of_nat <$> seq 1 25) (Chain.mkChain [])))
  = nthCapacity <$> seq 0
      (S (fst (pushRun (Z.of_nat <$> seq 1 25) (Chain.mkChain [])))).
Proof.
  refine (proj1 (chain_growth_doubles (Z.of_nat <$> seq 1 25) _)). discriminate.
Defined.

(** Twenty-five pushes: two growth events, three segments. *)
Example chain_growth_25 :
  pushRun (Z.of_nat <$> seq 1 25) (Chain.mkChain [])
  = (2%nat,
     Chain.mkChain
       [mkDequeue (pack 8 0) (Z.of_nat <$> seq 1 8);
        mkDequeue (pack 16 0) (Z.of_nat <$> seq 9 16);
        mkDequeue (pack 1 0) (25 :: replicate 31 0)]).
Proof. vm_compute. reflexivity. Qed.

(** ** The pool *)

Lemma indexLocal_Some (arr : option (list poolLocal)) (i : Z) (l : poolLocal) :
  indexLocal arr i = Some l →
  0 <= i ∧ ∃ a, arr = Some a ∧ a !! Z.to_nat i = Some l.
Proof.
  unfold indexLocal. destruct (0 <=? i) eqn:Hi; [| discriminate].
  destruct arr as [a |]; [| discriminate]. cbn.
  intros Hl. split; [lia | eauto].
Qed.

Lemma atLocal_Some {A : Type} (g : generation) (i : Z) (m : M poolLocal A)
    (p : Pool) (a : list poolLocal) (l : poolLocal) :
  0 <= i → arrayOf g p = Some a → a !! Z.to_nat i = Some l →
  atLocal g i m p
  = (fst (m l), setArray g (<[Z.to_nat i := snd (m l)]> a) p).
Proof.
  intros Hi Ha Hl. unfold atLocal, indexLocal. rewrite Ha.
  replace (0 <=? i) with true by (symmetry; apply Z.leb_le; exact Hi).
  cbn. rewrite Hl. destruct (m l); reflexivity.
Qed.

(** C1: on a pool whose current generation covers the calling worker,
    [Put] of a non-zero value leaves the worker's private slot as it was,
    empty or not, and pushes the value onto the worker's chain head: the
    private slot is never written. *)
Theorem Put_skips_private (rt : runtime) (v : T) (p : Pool) (l : poolLocal) :
  v ≠ 0 →
  uintptr (procPin rt) < localSize p →
  indexLocal (local p) (procPin rt) = Some l →
  fst (Put rt v p) = fst (Chain.pushHead v (shared l))
  ∧ indexLocal (local (snd (Put rt v p))) (procPin rt)
    = Some (mkLocal (private l) (snd (Chain.pushHead v (shared l)))).
Proof.
  intros Hv Hpid Hl.
  destruct (indexLocal_Some _ _ _ Hl) as (Hi & a & Ha & Hal).
  unfold Put. replace (isNil v) with false by (symmetry; apply Z.eqb_neq; exact Hv).
  unfold bind, pin.
  replace (uintptr (procPin rt) <? localSize p) with true
    by (symmetry; apply Z.ltb_lt; exact Hpid).
  rewrite (atLocal_Some Current (procPin rt) _ p a l) by assumption.
  unfold onShared. destruct (Chain.pushHead v (shared l)) as [r c].
  cbn [fst snd]. split; [reflexivity |].
  unfold setArray, indexLocal. cbn [local].
  replace (0 <=? procPin rt) with true by (symmetry; apply Z.leb_le; exact Hi).
  cbn. apply list_lookup_insert_eq. eapply lookup_lt_Some, Hal.
Qed.

Lemma Put_skips_private_witness :
  fst (Put oneWorker 5 idlePool) = fst (Chain.pushHead 5 (Chain.mkChain []))
  ∧ indexLocal (local (snd (Put oneWorker 5 idlePool))) 0
    = Some (mkLocal 0 (snd (Chain.pushHead 5 (Chain.mkChain [])))).
Proof.
  apply (Put_skips_private oneWorker 5 idlePool (mkLocal 0 (Chain.mkChain []))).
  - discriminate.
  - reflexivity.
  - reflexivity.
Defined.

(** The same from a pool that has no generation yet: [pinSlow] allocates
    it, and the value lands in the chain. *)
Example Put_on_new_pool :
  Put oneWorker 5 (newPool None)
  = (Returns tt,
     mkPool None
       (Some [mkLocal 0 (Chain.mkChain
                [mkDequeue (pack 1 0) [5; 0; 0; 0; 0; 0; 0; 0]])])
       1 None 0).
Proof. vm_compute. reflexivity. Qed.

(** *** The slow path keeps the victim generation *)

Lemma keeps_ret {A : Type} (a : A) : keepsVictimSize (ret a).
Proof. intros p. reflexivity. Qed.

Lemma keeps_bind {A B : Type} (m : M Pool A) (k : A → M Pool B) :
  keepsVictimSize m → (∀ a, keepsVictimSize (k a)) → keepsVictimSize (bind m k).
Proof.
  intros Hm Hk p. unfold bind. specialize (Hm p).
  destruct (m p) as [[a | |] p1]; cbn [snd] in *; [| exact Hm | exact Hm].
  rewrite Hk. exact Hm.
Qed.

Lemma keeps_atLocal {A : Type} (g : generation) (i : Z) (m : M poolLocal A) :
  keepsVictimSize (atLocal g i m).
Proof.
  intros p. unfold atLocal.
  destruct (indexLocal (arrayOf g p) i) as [l |]; [| reflexivity].
  destruct (arrayOf g p) as [a |]; [| reflexivity].
  destruct (m l) as [r l']. destruct g; reflexivity.
Qed.

Lemma keeps_forRange {A : Type} (body : Z → M Pool (option A)) (n : nat) :
  (∀ i, keepsVictimSize (body i)) →
  ∀ from, keepsVictimSize (forRange body from n).
Proof.
  intros Hbody. induction n as [| n IH]; intros from.
  - apply keeps_ret.
  - cbn [forRange]. apply keeps_bind; [apply Hbody |].
    intros [a |]; [apply keeps_ret | apply IH].
Qed.

(** A loop whose body always leaves the function returns from its first
    iteration, if it has one. *)
Lemma forRange_leaves {S A : Type} (body : Z → M S (option A)) (n : nat) (from : Z) (s : S) :
  (∀ i s', fst (body i s') ≠ Returns None) →
  n ≠ O → fst (forRange body from n s) ≠ Returns None.
Proof.
  intros Hbody Hn. destruct n as [| n]; [contradiction |].
  cbn [forRange]. unfold bind. specialize (Hbody from s).
  destruct (body from s) as [[[a |] | |] s1]; cbn [fst] in *;
    [discriminate | contradiction | discriminate | discriminate].
Qed.

(** C4: [getSlow] never writes [victimSize]; in particular, when the
    current chains, the victim's private slot and the victim chains all
    yield nothing, it returns the zero value and the victim generation is
    still in place (the scan of the victim chains returns from its first
    iteration, because [&x != nil] always holds). *)
Theorem getSlow_keeps_victim (pid : Z) (p : Pool) :
  0 <= victimSize p < 2 ^ 63 →
  victimSize (snd (getSlow pid p)) = victimSize p.
Proof.
  intros Hsize. unfold getSlow.
  set (scan := forRange _ 0 (Z.to_nat (int (localSize p)))).
  assert (Hscan : keepsVictimSize scan).
  { apply keeps_forRange. intros i. apply keeps_bind; [apply keeps_atLocal |].
    intros x. destruct (negb (isNil x.1)); apply keeps_ret. }
  unfold bind at 1. specialize (Hscan p).
  destruct (scan p) as [[[x |] | |] p1]; cbn [snd] in Hscan;
    [exact Hscan | | exact Hscan | exact Hscan].
  rewrite <- Hscan in *. clear Hscan scan p. rename p1 into p.
  destruct (uintptr pid >=? victimSize p) eqn:Hpid; [reflexivity |].
  unfold bind at 1.
  pose proof (keeps_atLocal Victim pid getPrivate p) as H1.
  destruct (atLocal Victim pid getPrivate p) as [[x | |] p1]; cbn [snd] in H1;
    [| exact H1 | exact H1].
  destruct (negb (isNil x)).
  { rewrite <- H1. apply keeps_bind; [apply keeps_atLocal |].
    intros _. apply keeps_ret. }
  unfold bind at 1.
  set (scan2 := forRange _ 0 (Z.to_nat (int (victimSize p)))).
  assert (Hkeep2 : keepsVictimSize scan2).
  { apply keeps_forRange. intros i. apply keeps_bind; [apply keeps_atLocal |].
    intros y. apply keeps_ret. }
  assert (Hleave : fst (scan2 p1) ≠ Returns None).
  { apply forRange_leaves.
    - intros i s'. unfold bind.
      destruct (atLocal Victim _ _ s') as [[y | |] s1]; cbn; discriminate.
    - assert (0 < int (victimSize p)) by (rewrite Z.geb_leb in Hpid; apply Z.leb_gt in Hpid; wrap_arith).
      lia. }
  specialize (Hkeep2 p1).
  destruct (scan2 p1) as [[[y |] | |] p2]; unfold ret; cbn [fst snd] in *;
    [congruence | contradiction | congruence | congruence].
Qed.

Lemma getSlow_keeps_victim_witness :
  getSlow 0 idlePoolWithVictim = (Returns 0, idlePoolWithVictim)
  ∧ victimSize (snd (getSlow 0 idlePoolWithVictim)) = 1.
Proof.
  split; [reflexivity |].
  apply (getSlow_keeps_victim 0 idlePoolWithVictim).
  cbn [victimSize idlePoolWithVictim]. lia.
Defined.

(** *** The round trip of one worker *)

(** The chain's [popHead] stops at its newest segment: when that one is
    empty, the segment's [popHead] panics. *)
Lemma chain_popHead_drained (c : Chain.poolChain) (init : list poolDequeue)
    (d : poolDequeue) :
  Chain.segs c = init ++ [d] → headOf d = tailOf d →
  Chain.popHead c = (Panics, c).
Proof.
  intros Hsegs Hempty. unfold Chain.popHead. rewrite Hsegs, rev_unit.
  cbn [Chain.popHead_walk]. unfold Dequeue.popHead.
  rewrite popHead_loop_empty by assumption.
  cbn [rev]. rewrite rev_involutive, <- Hsegs. destruct c; reflexivity.
Qed.

(** So does [Get], once the worker's private slot is empty and the newest
    segment of its chain has been drained. *)
Lemma Get_on_drained_chain_panics (rt : runtime) (p : Pool) (l : poolLocal)
    (init : list poolDequeue) (d : poolDequeue) :
  uintptr (procPin rt) < localSize p →
  indexLocal (local p) (procPin rt) = Some l →
  private l = 0 →
  Chain.segs (shared l) = init ++ [d] → headOf d = tailOf d →
  Get rt p = (Panics, p).
Proof.
  intros Hpid Hl Hpriv Hsegs Hempty.
  destruct (indexLocal_Some _ _ _ Hl) as (Hi & a & Ha & Hal).
  assert (Hp : setArray Current a p = p).
  { destruct p; cbn in *. congruence. }
  assert (Hl0 : mkLocal zeroValue (shared l) = l).
  { destruct l; cbn in *. unfold zeroValue. congruence. }
  assert (Hl1 : mkLocal (private l) (shared l) = l) by (destruct l; reflexivity).
  unfold Get, bind, pin.
  replace (uintptr (procPin rt) <? localSize p) with true
    by (symmetry; apply Z.ltb_lt; exact Hpid).
  rewrite (atLocal_Some Current (procPin rt) getPrivate p a l) by assumption.
  cbn [getPrivate fst snd]. rewrite list_insert_id, Hp by assumption.
  cbv beta iota.
  rewrite (atLocal_Some Current (procPin rt) _ p a l) by assumption.
  cbn [setPrivate fst snd].
  rewrite Hl0, list_insert_id, Hp, Hpriv by assumption.
  cbv beta iota. change (isNil 0) with true. cbv beta iota.
  rewrite (atLocal_Some Current (procPin rt) _ p a l) by assumption.
  unfold onShared. rewrite (chain_popHead_drained _ init d) by assumption.
  cbn [fst snd]. rewrite Hl1, list_insert_id, Hp by assumption. reflexivity.
Qed.

(** C5: one worker puts 1, 2 and 3 into an empty pool whose factory
    returns 0: each [Put] returns and the values go to the worker's
    chain.  The next three calls of [Get] return 3, 2 and 1; the fourth
    does not return 0: it panics, in [poolDequeue.popHead] on the drained
    segment. *)
Theorem roundtrip_fourth_Get_panics :
  ∃ q1 q2 q3 p1 p2 p3,
    Put oneWorker 1 (newPool (Some (λ _, 0))) = (Returns tt, q1)
    ∧ Put oneWorker 2 q1 = (Returns tt, q2)
    ∧ Put oneWorker 3 q2 = (Returns tt, q3)
    ∧ local q3
      = Some [mkLocal 0 (Chain.mkChain
                [mkDequeue (pack 3 0) [1; 2; 3; 0; 0; 0; 0; 0]])]
    ∧ Get oneWorker q3 = (Returns 3, p1)
    ∧ Get oneWorker p1 = (Returns 2, p2)
    ∧ Get oneWorker p2 = (Returns 1, p3)
    ∧ Get oneWorker p3 = (Panics, p3).
Proof.
  do 6 eexists. repeat apply conj.
  - vm_compute. reflexivity.
  - vm_compute. reflexivity.
  - vm_compute. reflexivity.
  - reflexivity.
  - vm_compute. reflexivity.
  - vm_compute. reflexivity.
  - vm_compute. reflexivity.
  - eapply (Get_on_drained_chain_panics oneWorker _ _ []);
      [reflexivity | reflexivity | reflexivity | reflexivity | reflexivity].
Qed.

(** A pool that was never used is not affected: its chain has no segment
    and [Get] returns the factory's value. *)
Example Get_on_new_pool :
  fst (Get oneWorker (newPool (Some (λ _, 0)))) = Returns 0.
Proof. vm_compute. reflexivity. Qed.

(** ** The decay step *)

Lemma rangeOver_cons (body : Pool → Pool) (q : poolPtr) (ps : list poolPtr)
    (h : gmap nat Pool) :
  rangeOver body (q :: ps) h = rangeOver body ps (through body q h).
Proof. reflexivity. Qed.

Lemma through_other (body : Pool → Pool) (q : poolPtr) (a : nat) (h : gmap nat Pool) :
  q ≠ PoolAt a → through body q h !! a = h !! a.
Proof.
  intros Hne. destruct q as [b | n]; [| reflexivity].
  apply lookup_alter_ne. congruence.
Qed.

(** A pool no entry of the slice points to is left alone. *)
Lemma rangeOver_other (body : Pool → Pool) (ps : list poolPtr) (a : nat) :
  PoolAt a ∉ ps → ∀ h, rangeOver body ps h !! a = h !! a.
Proof.
  induction ps as [| q ps IH]; intros Hnotin h; [reflexivity |].
  apply not_elem_of_cons in Hnotin as [Hne Hnotin].
  rewrite rangeOver_cons, IH by assumption.
  apply through_other. congruence.
Qed.

(** A pool the slice points to once has the body applied once. *)
Lemma rangeOver_once (body : Pool → Pool) (ps : list poolPtr) (a : nat) :
  NoDup ps → PoolAt a ∈ ps → ∀ h, rangeOver body ps h !! a = body <$> h !! a.
Proof.
  induction ps as [| q ps IH]; intros Hnd Hin h.
  - apply elem_of_nil in Hin. contradiction.
  - apply NoDup_cons in Hnd as [Hb Hnd]. rewrite rangeOver_cons.
    apply elem_of_cons in Hin as [<- | Hin].
    + rewrite rangeOver_other by assumption. apply lookup_alter_eq.
    + rewrite IH by assumption. rewrite through_other; [reflexivity |].
      intros ->. contradiction.
Qed.

(** However often the slice points to a pool, a body that does nothing
    the second time has been applied to it. *)
Lemma rangeOver_idempotent (body : Pool → Pool) (ps : list poolPtr) (a : nat) :
  (∀ p, body (body p) = body p) →
  PoolAt a ∈ ps → ∀ h, rangeOver body ps h !! a = body <$> h !! a.
Proof.
  intros Hidem. induction ps as [| q ps IH]; intros Hin h.
  - apply elem_of_nil in Hin. contradiction.
  - rewrite rangeOver_cons.
    destruct (decide (PoolAt a ∈ ps)) as [Hps | Hps].
    + rewrite IH by assumption.
      destruct (decide (q = PoolAt a)) as [-> | Hne].
      * cbn [through]. rewrite lookup_alter_eq. destruct (h !! a); cbn; [| reflexivity].
        rewrite Hidem. reflexivity.
      * rewrite through_other by assumption. reflexivity.
    + apply elem_of_cons in Hin as [<- | Hin]; [| contradiction].
      rewrite rangeOver_other by assumption. apply lookup_alter_eq.
Qed.

(** Through addresses of receiver variables the loop reaches no pool. *)
Lemma rangeOver_receivers (body : Pool → Pool) (ps : list poolPtr) (h : gmap nat Pool) :
  Forall isReceiverVar ps → rangeOver body ps h = h.
Proof.
  intros Hall. revert h. induction Hall as [| q ps Hq _ IH]; intros h; [reflexivity |].
  rewrite rangeOver_cons, IH. destruct q; [contradiction | reflexivity].
Qed.

(** What the decay step does through entries that are addresses of
    pools, on a registry whose [allPools] lists each of them once.  First
    every pool [oldPools] points to has its victim pointer and size
    cleared; then every pool [allPools] points to has its current
    generation moved into its victim slot and its current generation
    cleared; then the slices are swapped. *)
Lemma poolCleanup_on_pool_entries (r : registry) :
  NoDup (allPools r) →
  (∀ a p, PoolAt a ∈ oldPools r → pools r !! a = Some p →
     pools (dropVictims r) !! a
     = Some (mkPool (New p) (local p) (localSize p) None 0))
  ∧ (∀ a, PoolAt a ∉ oldPools r → pools (dropVictims r) !! a = pools r !! a)
  ∧ (∀ a p, PoolAt a ∈ allPools r → pools r !! a = Some p →
       pools (poolCleanup r) !! a
       = Some (mkPool (New p) None 0 (local p) (localSize p)))
  ∧ (∀ a p, PoolAt a ∉ allPools r → PoolAt a ∈ oldPools r → pools r !! a = Some p →
       pools (poolCleanup r) !! a
       = Some (mkPool (New p) (local p) (localSize p) None 0))
  ∧ (∀ a, PoolAt a ∉ allPools r → PoolAt a ∉ oldPools r →
       pools (poolCleanup r) !! a = pools r !! a)
  ∧ oldPools (poolCleanup r) = allPools r
  ∧ allPools (poolCleanup r) = [].
Proof.
  intros Hnd.
  assert (Hdrop : ∀ a p, PoolAt a ∈ oldPools r → pools r !! a = Some p →
            pools (dropVictims r) !! a = Some (dropVictim p)).
  { intros a p Hin Hp. unfold dropVictims. cbn [pools].
    rewrite rangeOver_idempotent, Hp by (reflexivity || assumption).
    reflexivity. }
  assert (Hkeep : ∀ a, PoolAt a ∉ oldPools r →
            pools (dropVictims r) !! a = pools r !! a).
  { intros a Hnotin. unfold dropVictims. cbn [pools].
    apply rangeOver_other, Hnotin. }
  repeat split.
  - exact Hdrop.
  - exact Hkeep.
  - intros a p Hin Hp. unfold poolCleanup, swapSets, demoteAll. cbn [pools allPools].
    rewrite rangeOver_once by assumption.
    destruct (decide (PoolAt a ∈ oldPools r)) as [Hold | Hold].
    + rewrite (Hdrop a p) by assumption. reflexivity.
    + rewrite Hkeep, Hp by assumption. reflexivity.
  - intros a p Hnotin Hold Hp. unfold poolCleanup, swapSets, demoteAll.
    cbn [pools allPools]. rewrite rangeOver_other by assumption.
    apply Hdrop; assumption.
  - intros a Hnotin Hold. unfold poolCleanup, swapSets, demoteAll.
    cbn [pools allPools]. rewrite rangeOver_other by assumption.
    apply Hkeep, Hold.
Qed.

Example poolCleanup_handSetRegistry :
  pools (poolCleanup handSetRegistry) !! 1%nat
  = Some (mkPool None None 0 (Some [mkLocal 7 (Chain.mkChain [])]) 1)
  ∧ pools (poolCleanup handSetRegistry) !! 2%nat
    = Some (mkPool None None 0 None 0)
  ∧ pools (poolCleanup handSetRegistry) !! 3%nat = Some samplePool3
  ∧ oldPools (poolCleanup handSetRegistry) = [PoolAt 1]
  ∧ allPools (poolCleanup handSetRegistry) = [].
Proof. vm_compute. repeat split. Qed.

(** *** The registries the program builds *)

Lemma receiversOnly_register (a : nat) (r : registry) :
  receiversOnly r → receiversOnly (register a r).
Proof.
  intros [Hall Hold]. split; [| exact Hold].
  cbn [register allPools]. apply Forall_app. split; [exact Hall |].
  apply Forall_singleton. exact I.
Qed.

Lemma receiversOnly_callAt {A : Type} (rt : runtime) (m : M Pool A) (a : nat)
    (r : registry) :
  receiversOnly r → receiversOnly (snd (callAt rt m a r)).
Proof.
  intros Hr. unfold callAt. destruct (pools r !! a) as [p |]; [| exact Hr].
  destruct (m p) as [o p']. cbn [snd].
  destruct (pinAppends rt p); [apply (receiversOnly_register a) in Hr |]; exact Hr.
Qed.

Lemma receiversOnly_poolCleanup (r : registry) :
  receiversOnly r → receiversOnly (poolCleanup r).
Proof. intros [Hall _]. split; [apply Forall_nil_2 | exact Hall]. Qed.

(** Every entry of a registry the program reaches is the address of a
    receiver variable. *)
Lemma reachable_receiversOnly (r : registry) : reachable r → receiversOnly r.
Proof.
  induction 1 as [h | rt a x r _ IH | rt a r _ IH | r _ IH].
  - split; apply Forall_nil_2.
  - unfold PutAt. destruct (isNil x); [exact IH |].
    apply receiversOnly_callAt, IH.
  - apply receiversOnly_callAt, IH.
  - apply receiversOnly_poolCleanup, IH.
Qed.

(** On such a registry the decay step changes no pool. *)
Lemma poolCleanup_receiversOnly (r : registry) :
  receiversOnly r → pools (poolCleanup r) = pools r.
Proof.
  intros [Hall Hold]. unfold poolCleanup, swapSets, demoteAll, dropVictims.
  cbn [pools allPools oldPools].
  rewrite (rangeOver_receivers demote) by exact Hall.
  apply rangeOver_receivers, Hold.
Qed.


(** A call on the address of a pool: its outcome is the method's, and the
    pool it leaves is the method's. *)
Lemma callAt_Some {A : Type} (rt : runtime) (m : M Pool A) (a : nat)
    (r : registry) (p : Pool) :
  pools r !! a = Some p →
  fst (callAt rt m a r) = fst (m p)
  ∧ pools (snd (callAt rt m a r)) = <[a := snd (m p)]> (pools r)
  ∧ oldPools (snd (callAt rt m a r)) = oldPools r
  ∧ (if pinAppends rt p
     then allPools (snd (callAt rt m a r))
          = allPools r ++ [ReceiverVar (length (receivers r))]
          ∧ receivers (snd (callAt rt m a r)) = receivers r ++ [a]
     else allPools (snd (callAt rt m a r)) = allPools r
          ∧ receivers (snd (callAt rt m a r)) = receivers r).
Proof.
  intros Hp. unfold callAt. rewrite Hp. destruct (m p) as [o p']. cbn [fst snd].
  destruct (pinAppends rt p); repeat split.
Qed.

(** * Further properties *)

(** ** The ring segment, continued *)

Lemma land_le_r (a b : Z) : 0 <= b → Z.land a b <= b.
Proof.
  intros Hb.
  assert (H : Z.ldiff (Z.land a b) b = 0).
  { apply Z.bits_inj'. intros n Hn.
    rewrite Z.ldiff_spec, Z.land_spec, Z.bits_0.
    destruct (Z.testbit a n), (Z.testbit b n); reflexivity. }
  apply Z.sub_nocarry_ldiff in H.
  assert (0 <= Z.ldiff b (Z.land a b)) by (apply Z.ldiff_nonneg; left; exact Hb).
  lia.
Qed.

(** The slot index the code computes lies in the slice as soon as the
    slice has a slot (and fewer than [2^32]). *)
Lemma slot_index_in_range (head n : Z) :
  0 <= head → 0 < n < 2 ^ 32 →
  0 <= Z.land head (uint32 (n - 1)) < n.
Proof.
  intros Hh Hn.
  replace (uint32 (n - 1)) with (n - 1) by (unfold uint32; rewrite Z.mod_small; lia).
  split.
  - apply Z.land_nonneg. left. exact Hh.
  - pose proof (land_le_r head (n - 1)). lia.
Qed.

Lemma slotAt_in_range (d : poolDequeue) (head : Z) :
  0 <= head → 0 < len d < 2 ^ 32 →
  ∃ w, slotAt d (Z.land head (uint32 (len d - 1)))
       = Some (Z.to_nat (Z.land head (uint32 (len d - 1))), w).
Proof.
  intros Hh Hn. pose proof (slot_index_in_range head (len d) Hh Hn) as Hi.
  unfold slotAt.
  destruct (lookup_lt_is_Some_2 (vals d) (Z.to_nat (Z.land head (uint32 (len d - 1)))))
    as [w Hw]; [unfold len in *; lia |].
  exists w. rewrite Hw. reflexivity.
Qed.

Lemma pack_range (head tail : Z) : 0 <= pack head tail < 2 ^ 64.
Proof. rewrite pack_arith. wrap_arith. Qed.

Lemma pack_unpack_eq (ptrs head tail : Z) :
  0 <= ptrs < 2 ^ 64 → unpack ptrs = (head, tail) → pack head tail = ptrs.
Proof.
  intros Hr E. rewrite unpack_arith in E. injection E as <- <-.
  rewrite pack_arith. wrap_arith.
Qed.

(** X1: packing the two indices unpacked from a [uint64] word gives the
    word back, and a packed word is always a [uint64]. *)
Theorem pack_unpack_roundtrip (ptrs : Z) :
  0 <= ptrs < 2 ^ 64 →
  pack (fst (unpack ptrs)) (snd (unpack ptrs)) = ptrs
  ∧ ∀ head tail, 0 <= pack head tail < 2 ^ 64.
Proof.
  intros Hr. split; [| apply pack_range].
  apply pack_unpack_eq; [exact Hr |]. destruct (unpack ptrs); reflexivity.
Qed.

Lemma pack_unpack_roundtrip_witness :
  pack (fst (unpack (2 ^ 64 - 1))) (snd (unpack (2 ^ 64 - 1))) = 2 ^ 64 - 1.
Proof. refine (proj1 (pack_unpack_roundtrip (2 ^ 64 - 1) _)). lia. Defined.

(** What a successful [pushHead] has done. *)
Lemma pushHead_true_inv (v : T) (d d' : poolDequeue) :
  pushHead v d = (Returns true, d') →
  ∃ head tail,
    unpack (headTail d) = (head, tail)
    ∧ uint32 (tail + uint32 (len d)) ≠ head
    ∧ vals d !! Z.to_nat (Z.land head (uint32 (len d - 1))) = Some 0
    ∧ v ≠ 0
    ∧ d' = mkDequeue (uint64 (headTail d + 1 ≪ dequeueBits))
             (<[Z.to_nat (Z.land head (uint32 (len d - 1))) := v]> (vals d)).
Proof.
  unfold pushHead. destruct (unpack (headTail d)) as [head tail] eqn:E.
  destruct (_ =? head) eqn:Hfull; [discriminate |].
  unfold slotAt.
  destruct (vals d !! _) as [w |] eqn:Hw; cbn [fmap option_fmap option_map];
    [| discriminate].
  destruct (w =? 0) eqn:Hw0; cbn [negb]; [| discriminate].
  destruct (isNil v) eqn:Hv; [discriminate |].
  intros [= <-]. exists head, tail.
  apply Z.eqb_neq in Hfull. rewrite land_mask in Hfull.
  apply Z.eqb_eq in Hw0 as ->. apply Z.eqb_neq in Hv.
  repeat split; try assumption.
  unfold uint32 in *. rewrite Z.mod_mod in Hfull by lia. exact Hfull.
Qed.

(** A call of [pushHead] that does not return true has changed nothing. *)
Lemma pushHead_not_true_same (v : T) (d : poolDequeue) :
  fst (pushHead v d) ≠ Returns true → snd (pushHead v d) = d.
Proof.
  unfold pushHead. destruct (unpack (headTail d)) as [head tail].
  destruct (_ =? head); [reflexivity |].
  destruct (slotAt d _) as [[slot w] |]; [| reflexivity].
  destruct (negb (w =? 0)); [reflexivity |].
  destruct (isNil v); [reflexivity |].
  cbn [fst]. contradiction.
Qed.

Lemma pushHead_then_popHead (budget : nat) (v : T) (d d' : poolDequeue) :
  within_capacity d → len d < 2 ^ 32 → 0 <= headTail d < 2 ^ 64 →
  pushHead v d = (Returns true, d') →
  popHead_loop (S budget) d' = (Returns (v, true), d).
Proof.
  intros Hinv Hlen Hword Hpush.
  destruct (pushHead_true_inv v d d' Hpush) as (head & tail & E & Hroom & Hslot & Hv & ->).
  destruct (unpack_indices d head tail E) as (Hh & Ht & Rh & Rt).
  cbn [popHead_loop headTail]. rewrite unpack_add_head, E. cbn [fst snd].
  unfold within_capacity, occupancy in Hinv. rewrite Hh, Ht in Hinv.
  assert (Hlen0 : 0 <= len d) by (unfold len; lia).
  replace (tail =? uint32 (head + 1)) with false
    by (symmetry; apply Z.eqb_neq; wrap_arith).
  replace (uint32 (uint32 (head + 1) - 1)) with head by wrap_arith.
  unfold CompareAndSwap. cbn [headTail vals]. rewrite Z.eqb_refl.
  unfold slotAt, len. cbn [vals]. rewrite length_insert.
  fold (len d).
  rewrite list_lookup_insert_eq by (eapply lookup_lt_Some, Hslot).
  cbn [fmap option_fmap option_map].
  replace (isNil v) with false by (symmetry; apply Z.eqb_neq; exact Hv).
  cbn [headTail vals].
  rewrite list_insert_insert_eq, (list_insert_id _ _ _ Hslot).
  rewrite (pack_unpack_eq (headTail d) head tail Hword E).
  destruct d; reflexivity.
Qed.

(** X2: [pushHead] followed by [popHead] on a segment within capacity:
    the value pushed comes back and the segment is as it was before the
    push. *)
Theorem pushHead_popHead_roundtrip (budget : nat) (v : T) (d d' : poolDequeue) :
  within_capacity d → len d < 2 ^ 32 → 0 <= headTail d < 2 ^ 64 →
  pushHead v d = (Returns true, d') →
  popHead_loop (S budget) d' = (Returns (v, true), d).
Proof. apply pushHead_then_popHead. Qed.

Lemma pushHead_popHead_roundtrip_witness :
  popHead_loop 1 (snd (pushHead 9 oneValueSegment))
  = (Returns (9, true), oneValueSegment).
Proof.
  apply (pushHead_popHead_roundtrip 0 9 oneValueSegment).
  - unfold within_capacity. vm_compute. split; discriminate.
  - vm_compute. reflexivity.
  - vm_compute. split; [discriminate | reflexivity].
  - vm_compute. reflexivity.
Defined.

(** X3: [pushHead] cannot store the zero value.  It never returns true
    for it and never changes the segment; and wherever a non-zero value
    would have been stored (the segment has room and the head slot is
    empty), it panics. *)
Theorem pushHead_zero_value (d : poolDequeue) :
  fst (pushHead 0 d) ≠ Returns true
  ∧ snd (pushHead 0 d) = d
  ∧ (∀ v, fst (pushHead v d) = Returns true → pushHead 0 d = (Panics, d)).
Proof.
  assert (Hnot : fst (pushHead 0 d) ≠ Returns true).
  { unfold pushHead. destruct (unpack (headTail d)) as [head tail].
    destruct (_ =? head); [discriminate |].
    destruct (slotAt d _) as [[slot w] |]; [| discriminate].
    destruct (negb (w =? 0)); discriminate. }
  split; [exact Hnot | split; [apply pushHead_not_true_same, Hnot |]].
  intros v. unfold pushHead. destruct (unpack (headTail d)) as [head tail].
  destruct (_ =? head); [discriminate |].
  destruct (slotAt d _) as [[slot w] |]; [| discriminate].
  destruct (negb (w =? 0)); [discriminate |]. reflexivity.
Qed.

(** With a slot to index and a value that is not zero, [pushHead] returns
    true or false: it does not panic. *)
Lemma pushHead_returns (v : T) (d : poolDequeue) :
  0 < len d < 2 ^ 32 → v ≠ 0 → ∃ b, fst (pushHead v d) = Returns b.
Proof.
  intros Hlen Hv. unfold pushHead.
  destruct (unpack (headTail d)) as [head tail] eqn:E.
  destruct (unpack_indices d head tail E) as (_ & _ & Rh & _).
  destruct (_ =? head); [eauto |].
  destruct (slotAt_in_range d head) as [w ->]; [lia | exact Hlen |].
  destruct (negb (w =? 0)); [eauto |].
  replace (isNil v) with false by (symmetry; apply Z.eqb_neq; exact Hv).
  eauto.
Qed.

(** A chain element that has just been allocated takes a non-zero
    value. *)
Lemma pushHead_newElt (v : T) (n : Z) :
  0 < n < 2 ^ 32 → v ≠ 0 → fst (pushHead v (newElt n)) = Returns true.
Proof.
  intros Hn Hv. unfold pushHead.
  change (unpack (headTail (newElt n))) with (0, 0).
  rewrite newElt_len, land_mask by lia.
  replace (uint32 (0 + uint32 n) mod 2 ^ 32 =? 0) with false
    by (symmetry; apply Z.eqb_neq; wrap_arith).
  change (Z.land 0 (uint32 (n - 1))) with 0.
  unfold slotAt, newElt, makeVals. cbn [vals].
  rewrite lookup_replicate_2 by lia. cbn [fmap option_fmap option_map].
  change (negb (0 =? 0)) with false. cbv iota.
  replace (isNil v) with false by (symmetry; apply Z.eqb_neq; exact Hv).
  reflexivity.
Qed.

Lemma popHead_loop_len (budget : nat) (d : poolDequeue) :
  len (snd (popHead_loop budget d)) = len d.
Proof.
  destruct budget as [| n]; [reflexivity |]. cbn [popHead_loop].
  destruct (unpack (headTail d)) as [head tail].
  destruct (tail =? head); [reflexivity |].
  rewrite CompareAndSwap_own.
  destruct (slotAt _ _) as [[slot val] |]; [| reflexivity].
  destruct (isNil val); [reflexivity |].
  unfold len. cbn [snd vals]. rewrite length_insert. reflexivity.
Qed.

Lemma popTail_loop_len (budget : nat) (d : poolDequeue) :
  len (snd (popTail_loop budget d)) = len d.
Proof.
  destruct budget as [| n]; [reflexivity |]. cbn [popTail_loop].
  destruct (unpack (headTail d)) as [head tail].
  destruct (tail =? head); [reflexivity |].
  rewrite CompareAndSwap_own.
  destruct (slotAt _ _) as [[slot val] |]; [| reflexivity].
  destruct (isNil val); reflexivity.
Qed.

Lemma pushHead_word (v : T) (d : poolDequeue) :
  0 <= headTail d < 2 ^ 64 → 0 <= headTail (snd (pushHead v d)) < 2 ^ 64.
Proof.
  intros Hw. unfold pushHead. destruct (unpack (headTail d)) as [head tail].
  destruct (_ =? head); [exact Hw |].
  destruct (slotAt d _) as [[slot w] |]; [| exact Hw].
  destruct (negb (w =? 0)); [exact Hw |].
  destruct (isNil v); [exact Hw |].
  cbn [snd headTail]. wrap_arith.
Qed.

Lemma popHead_loop_word (budget : nat) (d : poolDequeue) :
  0 <= headTail d < 2 ^ 64 → 0 <= headTail (snd (popHead_loop budget d)) < 2 ^ 64.
Proof.
  intros Hw. destruct budget as [| n]; [exact Hw |]. cbn [popHead_loop].
  destruct (unpack (headTail d)) as [head tail].
  destruct (tail =? head); [exact Hw |].
  rewrite CompareAndSwap_own.
  destruct (slotAt _ _) as [[slot val] |]; [| apply pack_range].
  destruct (isNil val); apply pack_range.
Qed.

Lemma popTail_loop_word (budget : nat) (d : poolDequeue) :
  0 <= headTail d < 2 ^ 64 → 0 <= headTail (snd (popTail_loop budget d)) < 2 ^ 64.
Proof.
  intros Hw. destruct budget as [| n]; [exact Hw |]. cbn [popTail_loop].
  destruct (unpack (headTail d)) as [head tail].
  destruct (tail =? head); [exact Hw |].
  rewrite CompareAndSwap_own.
  destruct (slotAt _ _) as [[slot val] |]; [| apply pack_range].
  destruct (isNil val); apply pack_range.
Qed.

Lemma pushHead_segment_ok (v : T) (d : poolDequeue) :
  segment_ok d → segment_ok (snd (pushHead v d)).
Proof.
  intros (Hin & Hlen & Hw). split; [| split].
  - apply pushHead_within_capacity, Hin.
  - rewrite pushHead_len. exact Hlen.
  - apply pushHead_word, Hw.
Qed.

Lemma popHead_segment_ok (d : poolDequeue) :
  segment_ok d → segment_ok (snd (Dequeue.popHead d)).
Proof.
  intros (Hin & Hlen & Hw). unfold Dequeue.popHead. split; [| split].
  - apply popHead_loop_within_capacity, Hin.
  - rewrite popHead_loop_len. exact Hlen.
  - apply popHead_loop_word, Hw.
Qed.

Lemma popTail_segment_ok (d : poolDequeue) :
  segment_ok d → segment_ok (snd (Dequeue.popTail d)).
Proof.
  intros (Hin & Hlen & Hw). unfold Dequeue.popTail. split; [| split].
  - apply popTail_loop_within_capacity, Hin.
  - rewrite popTail_loop_len. exact Hlen.
  - apply popTail_loop_word, Hw.
Qed.

Lemma newElt_segment_ok (n : Z) : 0 < n <= dequeueLimit → segment_ok (newElt n).
Proof.
  intros Hn. split; [| split].
  - apply within_capacity_fresh. reflexivity.
  - rewrite newElt_len; lia.
  - cbn [newElt headTail]. lia.
Qed.

(** [popHead] never reports an empty segment: it returns a non-zero value
    with true, or it panics. *)
Lemma popHead_loop_outcome (budget : nat) (d : poolDequeue) :
  fst (popHead_loop (S budget) d) = Panics
  ∨ ∃ v, v ≠ 0 ∧ fst (popHead_loop (S budget) d) = Returns (v, true).
Proof.
  cbn [popHead_loop]. destruct (unpack (headTail d)) as [head tail].
  destruct (tail =? head); [left; reflexivity |].
  rewrite CompareAndSwap_own.
  destruct (slotAt _ _) as [[slot val] |]; [| left; reflexivity].
  destruct (isNil val) eqn:Hv; [left; reflexivity |].
  right. exists val. split; [apply Z.eqb_neq, Hv | reflexivity].
Qed.

Lemma popTail_loop_nonempty (budget : nat) (d : poolDequeue) :
  ¬ drained d → fst (popTail_loop (S budget) d) = Panics.
Proof.
  unfold drained. intros Hne. cbn [popTail_loop].
  destruct (unpack (headTail d)) as [head tail] eqn:E.
  destruct (unpack_indices d head tail E) as (Hh & Ht & _).
  replace (tail =? head) with false by (symmetry; apply Z.eqb_neq; congruence).
  rewrite CompareAndSwap_own.
  destruct (slotAt _ _) as [[slot val] |]; [| reflexivity].
  destruct (isNil val); reflexivity.
Qed.

Lemma drained_dec (d : poolDequeue) : drained d ∨ ¬ drained d.
Proof. unfold drained. destruct (decide (headOf d = tailOf d)); auto. Qed.

(** *** Last in, first out *)

Lemma popHeads_snoc (n : nat) :
  ∀ d, popHeads (n + 1) d
       = (fst (popHeads n d) ++ [fst (Dequeue.popHead (snd (popHeads n d)))],
          snd (Dequeue.popHead (snd (popHeads n d)))).
Proof.
  induction n as [| n IH]; intros d.
  - cbn [Nat.add popHeads fst snd app]. destruct (Dequeue.popHead d). reflexivity.
  - cbn [Nat.add popHeads]. destruct (Dequeue.popHead d) as [r d1].
    rewrite IH. destruct (popHeads n d1) as [rs d2]. reflexivity.
Qed.

Lemma pushAll_popHeads (vs : list T) :
  ∀ d, within_capacity d → len d < 2 ^ 32 → 0 <= headTail d < 2 ^ 64 →
    fst (pushAll vs d) = replicate (length vs) (Returns true) →
    popHeads (length vs) (snd (pushAll vs d))
    = ((λ v, Returns (v, true)) <$> rev vs, d).
Proof.
  induction vs as [| v vs IH]; intros d Hin Hlen Hw Hall; [reflexivity |].
  cbn [pushAll length replicate] in *.
  destruct (pushHead v d) as [r d1] eqn:Hpush.
  pose proof (pushHead_within_capacity v d Hin) as Hin1.
  pose proof (pushHead_len v d) as Hlen1.
  pose proof (pushHead_word v d Hw) as Hw1.
  rewrite Hpush in Hin1, Hlen1, Hw1. cbn [snd] in *.
  specialize (IH d1 Hin1).
  destruct (pushAll vs d1) as [rs d2]. cbn [fst snd] in *.
  injection Hall as -> Hrs.
  replace (S (length vs)) with (length vs + 1)%nat by lia.
  rewrite popHeads_snoc, IH by (exact Hrs || lia). cbn [fst snd].
  unfold Dequeue.popHead.
  rewrite (pushHead_then_popHead 0 v d d1) by assumption.
  cbn [fst snd rev]. rewrite fmap_app. reflexivity.
Qed.

(** X17: a segment is a stack for its producer.  After a run of
    successful [pushHead] calls on a segment within capacity, as many
    [popHead] calls return the values in reverse order and leave the
    segment exactly as it was before the first push. *)
Theorem pushAll_popHeads_lifo (vs : list T) (d : poolDequeue) :
  within_capacity d → len d < 2 ^ 32 → 0 <= headTail d < 2 ^ 64 →
  fst (pushAll vs d) = replicate (length vs) (Returns true) →
  popHeads (length vs) (snd (pushAll vs d))
  = ((λ v, Returns (v, true)) <$> rev vs, d).
Proof. apply pushAll_popHeads. Qed.

Lemma pushAll_popHeads_lifo_witness :
  popHeads 3 (snd (pushAll [1; 2; 3] (NewPoolDequeue 4)))
  = ([Returns (3, true); Returns (2, true); Returns (1, true)], NewPoolDequeue 4).
Proof.
  apply (pushAll_popHeads_lifo [1; 2; 3] (NewPoolDequeue 4)).
  - apply within_capacity_fresh. reflexivity.
  - vm_compute. reflexivity.
  - vm_compute. split; [discriminate | reflexivity].
  - vm_compute. reflexivity.
Defined.

Lemma pushHead_zero_value_witness :
  pushHead 0 (newElt 8) = (Panics, newElt 8).
Proof.
  apply (proj2 (proj2 (pushHead_zero_value (newElt 8))) 5). reflexivity.
Defined.

(** ** The segment chain, continued *)

Lemma chain_popHead_at_newest (c : Chain.poolChain) (init : list poolDequeue)
    (d : poolDequeue) :
  Chain.segs c = init ++ [d] →
  Chain.popHead c
  = (fst (Dequeue.popHead d), Chain.mkChain (init ++ [snd (Dequeue.popHead d)])).
Proof.
  intros Hsegs. unfold Chain.popHead. rewrite Hsegs, rev_unit.
  cbn [Chain.popHead_walk].
  pose proof (popHead_loop_outcome 0 d) as Hout. unfold Dequeue.popHead.
  destruct (popHead_loop 1 d) as [[[v [|]] | |] d']; cbn [fst snd rev] in *;
    try (rewrite rev_involutive; reflexivity).
  exfalso. destruct Hout as [H | (w & _ & H)]; discriminate.
Qed.

(** X4: the chain's [popHead] only ever serves the newest segment.  On a
    chain without segments it returns the zero value and false; otherwise
    its outcome is that of the newest segment's [popHead] and no older
    segment is read or written, so that it panics when the newest segment
    is drained, whatever the older ones hold. *)
Theorem chain_popHead_newest_only :
  Chain.popHead (Chain.mkChain []) = (Returns (0, false), Chain.mkChain [])
  ∧ (∀ c init d, Chain.segs c = init ++ [d] →
       Chain.popHead c
       = (fst (Dequeue.popHead d),
          Chain.mkChain (init ++ [snd (Dequeue.popHead d)])))
  ∧ (∀ c init d, Chain.segs c = init ++ [d] → drained d →
       Chain.popHead c = (Panics, c)).
Proof.
  split; [reflexivity | split].
  - apply chain_popHead_at_newest.
  - intros c init d Hsegs Hd. eapply chain_popHead_drained; eassumption.
Qed.

Lemma popTail_from_drained (newer : list poolDequeue) :
  ∀ d, drained d → Forall drained newer →
    Chain.popTail_from d newer
    = (Returns (0, false), option_list (last (d :: newer))).
Proof.
  induction newer as [| d2 newer IH]; intros d Hd Hnewer; cbn [Chain.popTail_from];
    unfold Dequeue.popTail; rewrite popTail_loop_empty by exact Hd.
  - reflexivity.
  - apply Forall_cons in Hnewer as [Hd2 Hnewer].
    rewrite IH by assumption. reflexivity.
Qed.

Lemma popTail_from_panics (newer : list poolDequeue) :
  ∀ d, Exists (λ d, ¬ drained d) (d :: newer) →
    fst (Chain.popTail_from d newer) = Panics.
Proof.
  induction newer as [| d2 newer IH]; intros d Hex; cbn [Chain.popTail_from];
    unfold Dequeue.popTail.
  - apply Exists_cons in Hex as [Hd | Hex]; [| apply Exists_nil in Hex; contradiction].
    pose proof (popTail_loop_nonempty 0 d Hd) as Hp.
    destruct (popTail_loop 1 d) as [[[v b] | |] d']; cbn [fst] in Hp;
      try discriminate. reflexivity.
  - destruct (drained_dec d) as [Hd | Hd].
    + rewrite popTail_loop_empty by exact Hd.
      apply Exists_cons in Hex as [Hnd | Hex]; [contradiction |].
      apply IH, Hex.
    + pose proof (popTail_loop_nonempty 0 d Hd) as Hp.
      destruct (popTail_loop 1 d) as [[[v b] | |] d']; cbn [fst] in Hp;
        try discriminate. reflexivity.
Qed.

Lemma drained_all_or_some (ds : list poolDequeue) :
  Forall drained ds ∨ Exists (λ d, ¬ drained d) ds.
Proof.
  induction ds as [| d ds [IH | IH]].
  - left. constructor.
  - destruct (drained_dec d) as [Hd | Hd].
    + left. constructor; assumption.
    + right. apply Exists_cons_hd, Hd.
  - right. apply Exists_cons_tl, IH.
Qed.

Lemma chain_popTail_drained (c : Chain.poolChain) :
  Forall drained (Chain.segs c) →
  Chain.popTail c
  = (Returns (0, false), Chain.mkChain (option_list (last (Chain.segs c)))).
Proof.
  intros Hall. unfold Chain.popTail. destruct c as [[| d newer]]; [reflexivity |].
  cbn [Chain.segs] in *. apply Forall_cons in Hall as [Hd Hnewer].
  rewrite popTail_from_drained by assumption. reflexivity.
Qed.

Lemma chain_popTail_panics (c : Chain.poolChain) :
  Exists (λ d, ¬ drained d) (Chain.segs c) → fst (Chain.popTail c) = Panics.
Proof.
  intros Hex. unfold Chain.popTail. destruct c as [[| d newer]].
  - apply Exists_nil in Hex. contradiction.
  - cbn [Chain.segs] in *. pose proof (popTail_from_panics newer d Hex) as Hp.
    destruct (Chain.popTail_from d newer) as [r ds]. exact Hp.
Qed.

Lemma chain_popTail_cases (c : Chain.poolChain) :
  fst (Chain.popTail c) = Panics ∨ fst (Chain.popTail c) = Returns (0, false).
Proof.
  destruct (drained_all_or_some (Chain.segs c)) as [Hf | He].
  - right. rewrite chain_popTail_drained by exact Hf. reflexivity.
  - left. apply chain_popTail_panics, He.
Qed.

(** X5: the chain's [popTail] never yields a value.  When every segment
    is drained it returns the zero value and false and leaves only the
    newest segment linked; when some segment holds a value it panics. *)
Theorem chain_popTail_outcome (c : Chain.poolChain) :
  (Forall drained (Chain.segs c) →
     Chain.popTail c
     = (Returns (0, false), Chain.mkChain (option_list (last (Chain.segs c)))))
  ∧ (Exists (λ d, ¬ drained d) (Chain.segs c) →
       fst (Chain.popTail c) = Panics)
  ∧ (∀ v c', Chain.popTail c ≠ (Returns (v, true), c')).
Proof.
  split; [apply chain_popTail_drained | split; [apply chain_popTail_panics |]].
  intros v c' Heq. destruct (chain_popTail_cases c) as [H | H];
    rewrite Heq in H; discriminate.
Qed.

(** *** Well-formed chains *)

Lemma chain_pushHead_on_empty (v : T) :
  Chain.pushHead v (Chain.mkChain [])
  = Chain.pushHead v (Chain.mkChain [newElt Chain.initSize]).
Proof. reflexivity. Qed.

Lemma newSize_range (n : Z) :
  0 < n <= dequeueLimit →
  0 < Z.min (2 * n) dequeueLimit <= dequeueLimit.
Proof. change dequeueLimit with 1073741824. lia. Qed.

Lemma chain_pushHead_ok_nonempty (v : T) (init : list poolDequeue) (d : poolDequeue) :
  Forall segment_ok init → segment_ok d →
  chain_ok (snd (Chain.pushHead v (Chain.mkChain (init ++ [d])))).
Proof.
  intros Hinit Hd. pose proof Hd as (_ & Hlen & _).
  unfold Chain.pushHead, Chain.head. cbn [Chain.segs]. rewrite last_snoc.
  pose proof (pushHead_segment_ok v d Hd) as Hd'.
  pose proof (pushHead_len v d) as Hl.
  destruct (Dequeue.pushHead v d) as [[[|] | |] d']; cbn [snd] in *;
    try (unfold Chain.setHead, chain_ok; cbn [Chain.segs];
         rewrite removelast_last; apply Forall_app; split;
         [exact Hinit | constructor; [exact Hd' | constructor]]).
  unfold Chain.setHead. cbn [Chain.segs]. rewrite removelast_last.
  change dequeueLimit with 1073741824 in Hlen.
  rewrite newSize_min by (rewrite Hl; change (2 ^ 62) with 4611686018427387904; lia).
  pose proof (newSize_range (len d')) as Hns.
  change dequeueLimit with 1073741824 in Hns.
  pose proof (pushHead_segment_ok v (newElt (Z.min (2 * len d') dequeueLimit))) as Hd2.
  destruct (Dequeue.pushHead v (newElt _)) as [[b | |] d2]; cbn [snd] in *;
    unfold Chain.link, chain_ok; cbn [Chain.segs];
    (apply Forall_app; split;
     [apply Forall_app; split; [exact Hinit | constructor; [exact Hd' | constructor]]
     | constructor; [| constructor];
       apply Hd2, newElt_segment_ok; change dequeueLimit with 1073741824; lia]).
Qed.

Lemma chain_pushHead_ok (v : T) (c : Chain.poolChain) :
  chain_ok c → chain_ok (snd (Chain.pushHead v c)).
Proof.
  intros Hc. destruct c as [ds].
  destruct (decide (ds = [])) as [-> | Hne].
  - rewrite chain_pushHead_on_empty.
    apply (chain_pushHead_ok_nonempty v []); [constructor |].
    apply newElt_segment_ok. vm_compute. split; [reflexivity | discriminate].
  - destruct (exists_last Hne) as (init & d & ->).
    unfold chain_ok in Hc. cbn [Chain.segs] in Hc.
    apply Forall_app in Hc as [Hinit Hd]. apply Forall_cons in Hd as [Hd _].
    apply chain_pushHead_ok_nonempty; assumption.
Qed.

Lemma chain_popHead_ok (c : Chain.poolChain) :
  chain_ok c → chain_ok (snd (Chain.popHead c)).
Proof.
  intros Hc. destruct c as [ds].
  destruct (decide (ds = [])) as [-> | Hne]; [exact Hc |].
  destruct (exists_last Hne) as (init & d & ->).
  rewrite (chain_popHead_at_newest _ init d) by reflexivity.
  unfold chain_ok in *. cbn [Chain.segs snd] in *.
  apply Forall_app in Hc as [Hinit Hd]. apply Forall_cons in Hd as [Hd _].
  apply Forall_app. split; [exact Hinit |].
  constructor; [apply popHead_segment_ok, Hd | constructor].
Qed.

Lemma popTail_from_ok (newer : list poolDequeue) :
  ∀ d, segment_ok d → Forall segment_ok newer →
    Forall segment_ok (snd (Chain.popTail_from d newer)).
Proof.
  induction newer as [| d2 newer IH]; intros d Hd Hnewer; cbn [Chain.popTail_from];
    pose proof (popTail_segment_ok d Hd) as Hd';
    destruct (Dequeue.popTail d) as [[[v [|]] | |] d']; cbn [snd] in *;
    try (constructor; assumption).
  apply Forall_cons in Hnewer as [Hd2 Hnewer]. apply IH; assumption.
Qed.

Lemma chain_popTail_ok (c : Chain.poolChain) :
  chain_ok c → chain_ok (snd (Chain.popTail c)).
Proof.
  intros Hc. unfold Chain.popTail. destruct c as [[| d newer]]; [exact Hc |].
  unfold chain_ok in *. cbn [Chain.segs] in *.
  apply Forall_cons in Hc as [Hd Hnewer].
  pose proof (popTail_from_ok newer d Hd Hnewer) as Hok.
  destruct (Chain.popTail_from d newer) as [r ds]. exact Hok.
Qed.

(** X6: every chain the code builds is well-formed: each segment has at
    least one slot and at most [dequeueLimit], holds no more values than
    it has slots, and its packed word is a [uint64].  The chain without
    segments is, and [pushHead], [popHead] and [popTail] keep it so,
    whatever their outcome. *)
Theorem chain_ok_kept :
  chain_ok (Chain.mkChain [])
  ∧ (∀ c, chain_ok c →
       (∀ v, chain_ok (snd (Chain.pushHead v c)))
       ∧ chain_ok (snd (Chain.popHead c))
       ∧ chain_ok (snd (Chain.popTail c))).
Proof.
  split; [constructor |]. intros c Hc. split; [| split].
  - intros v. apply chain_pushHead_ok, Hc.
  - apply chain_popHead_ok, Hc.
  - apply chain_popTail_ok, Hc.
Qed.

(** *** Push, then pop *)

Lemma segment_push_pop (v : T) (d : poolDequeue) :
  segment_ok d → fst (Dequeue.pushHead v d) = Returns true →
  fst (Dequeue.popHead (snd (Dequeue.pushHead v d))) = Returns (v, true).
Proof.
  intros (Hin & Hlen & Hw) Hpush. change dequeueLimit with 1073741824 in Hlen.
  destruct (Dequeue.pushHead v d) as [r d'] eqn:E. cbn [fst snd] in *. subst r.
  unfold Dequeue.popHead.
  rewrite (pushHead_then_popHead 0 v d d') by (assumption || lia). reflexivity.
Qed.

Lemma chain_push_pop_nonempty (v : T) (init : list poolDequeue) (d : poolDequeue) :
  segment_ok d → v ≠ 0 →
  ∃ c', Chain.pushHead v (Chain.mkChain (init ++ [d])) = (Returns tt, c')
        ∧ fst (Chain.popHead c') = Returns (v, true).
Proof.
  intros Hd Hv. pose proof Hd as (_ & Hlen & _).
  change dequeueLimit with 1073741824 in Hlen.
  unfold Chain.pushHead, Chain.head. cbn [Chain.segs]. rewrite last_snoc.
  destruct (pushHead_returns v d) as [b Hb]; [lia | exact Hv |].
  pose proof (segment_push_pop v d Hd) as Hpop.
  pose proof (pushHead_not_true_same v d) as Hsame.
  destruct (Dequeue.pushHead v d) as [r d']. cbn [fst snd] in *. subst r.
  destruct b.
  - eexists. split; [reflexivity |].
    unfold Chain.setHead. cbn [Chain.segs]. rewrite removelast_last.
    rewrite (chain_popHead_at_newest _ init d') by reflexivity.
    cbn [fst]. apply Hpop. reflexivity.
  - rewrite Hsame by discriminate.
    unfold Chain.setHead. cbn [Chain.segs]. rewrite removelast_last.
    rewrite newSize_min by (change (2 ^ 62) with 4611686018427387904; lia).
    set (n := Z.min (2 * len d) dequeueLimit).
    assert (Hn : 0 < n <= 1073741824)
      by (unfold n; change dequeueLimit with 1073741824; lia).
    pose proof (pushHead_newElt v n) as Htrue.
    pose proof (segment_push_pop v (newElt n)) as Hpop2.
    destruct (Dequeue.pushHead v (newElt n)) as [r2 d2]. cbn [fst snd] in *.
    rewrite Htrue in * by (exact Hv || lia).
    eexists. split; [reflexivity |].
    unfold Chain.link. cbn [Chain.segs].
    rewrite (chain_popHead_at_newest _ (init ++ [d]) d2) by reflexivity.
    cbn [fst]. apply Hpop2; [| reflexivity].
    apply newElt_segment_ok. change dequeueLimit with 1073741824. lia.
Qed.

Lemma chain_push_pop (v : T) (c : Chain.poolChain) :
  chain_ok c → v ≠ 0 →
  ∃ c', Chain.pushHead v c = (Returns tt, c')
        ∧ fst (Chain.popHead c') = Returns (v, true).
Proof.
  intros Hc Hv. destruct c as [ds].
  destruct (decide (ds = [])) as [-> | Hne].
  - rewrite chain_pushHead_on_empty.
    apply (chain_push_pop_nonempty v []); [| exact Hv].
    apply newElt_segment_ok. vm_compute. split; [reflexivity | discriminate].
  - destruct (exists_last Hne) as (init & d & ->).
    unfold chain_ok in Hc. cbn [Chain.segs] in Hc.
    apply Forall_app in Hc as [_ Hd]. apply Forall_cons in Hd as [Hd _].
    apply chain_push_pop_nonempty; assumption.
Qed.

(** X7: on a well-formed chain, [pushHead] of a non-zero value always
    returns (it grows the chain when the newest segment refuses), and the
    next [popHead] returns that value. *)
Theorem chain_pushHead_popHead (v : T) (c : Chain.poolChain) :
  chain_ok c → v ≠ 0 →
  ∃ c', Chain.pushHead v c = (Returns tt, c')
        ∧ chain_ok c'
        ∧ fst (Chain.popHead c') = Returns (v, true).
Proof.
  intros Hc Hv. destruct (chain_push_pop v c Hc Hv) as (c' & Hpush & Hpop).
  exists c'. split; [exact Hpush | split; [| exact Hpop]].
  pose proof (chain_pushHead_ok v c Hc) as Hok. rewrite Hpush in Hok. exact Hok.
Qed.

Lemma chain_pushHead_popHead_witness :
  ∃ c', Chain.pushHead 5 (Chain.mkChain [oneValueSegment]) = (Returns tt, c')
        ∧ chain_ok c'
        ∧ fst (Chain.popHead c') = Returns (5, true).
Proof.
  apply (chain_pushHead_popHead 5 (Chain.mkChain [oneValueSegment])).
  - constructor; [| constructor]. unfold segment_ok, within_capacity.
    vm_compute. repeat split; discriminate.
  - discriminate.
Defined.

Lemma chain_popHead_newest_only_witness :
  Chain.popHead (Chain.mkChain [oneValueSegment; newElt 16])
  = (Panics, Chain.mkChain [oneValueSegment; newElt 16]).
Proof.
  apply (proj2 (proj2 chain_popHead_newest_only)
           (Chain.mkChain [oneValueSegment; newElt 16]) [oneValueSegment] (newElt 16)).
  - reflexivity.
  - reflexivity.
Defined.

Lemma chain_popTail_outcome_witness :
  Chain.popTail (Chain.mkChain [newElt 8; newElt 16])
  = (Returns (0, false), Chain.mkChain [newElt 16])
  ∧ fst (Chain.popTail (Chain.mkChain [newElt 8; oneValueSegment])) = Panics.
Proof.
  split.
  - apply (proj1 (chain_popTail_outcome (Chain.mkChain [newElt 8; newElt 16]))).
    repeat constructor.
  - apply (proj1 (proj2 (chain_popTail_outcome
                           (Chain.mkChain [newElt 8; oneValueSegment])))).
    apply Exists_cons_tl, Exists_cons_hd. vm_compute. discriminate.
Defined.

Lemma chain_ok_kept_witness :
  chain_ok (snd (Chain.popHead (snd (Chain.pushHead 5 (Chain.mkChain []))))).
Proof.
  destruct chain_ok_kept as (Hnew & Hstep).
  destruct (Hstep _ Hnew) as (Hpush & _).
  destruct (Hstep _ (Hpush 5)) as (_ & Hpop & _).
  exact Hpop.
Defined.

(** ** The pool, continued *)

Lemma kept_ret {S A : Type} (P : S → Prop) (a : A) : keeps P (ret a).
Proof. intros s Hs. exact Hs. Qed.

Lemma kept_bind {S A B : Type} (P : S → Prop) (m : M S A) (k : A → M S B) :
  keeps P m → (∀ a, keeps P (k a)) → keeps P (bind m k).
Proof.
  intros Hm Hk s Hs. unfold bind. specialize (Hm s Hs).
  destruct (m s) as [[a | |] s1]; cbn [snd] in *; [| exact Hm | exact Hm].
  apply Hk, Hm.
Qed.

Lemma kept_forRange {S A : Type} (P : S → Prop) (body : Z → M S (option A)) (n : nat) :
  (∀ i, keeps P (body i)) → ∀ from, keeps P (forRange body from n).
Proof.
  intros Hbody. induction n as [| n IH]; intros from.
  - apply kept_ret.
  - cbn [forRange]. apply kept_bind; [apply Hbody |].
    intros [a |]; [apply kept_ret | apply IH].
Qed.

Lemma kept_onShared {A : Type} (m : M Chain.poolChain A) :
  keeps chain_ok m → keeps (λ l, chain_ok (shared l)) (onShared m).
Proof.
  intros Hm l Hl. unfold onShared. specialize (Hm (shared l) Hl).
  destruct (m (shared l)) as [r c]. exact Hm.
Qed.

Lemma generation_ok_insert (a : list poolLocal) (size : Z) (i : nat) (l : poolLocal) :
  generation_ok (Some a) size → chain_ok (shared l) →
  generation_ok (Some (<[i := l]> a)) size.
Proof.
  intros (Hsize & Hall) Hl. split.
  - rewrite length_insert. exact Hsize.
  - apply Forall_insert; assumption.
Qed.

Lemma kept_atLocal {A : Type} (g : generation) (i : Z) (m : M poolLocal A) :
  keeps (λ l, chain_ok (shared l)) m → keeps pool_ok (atLocal g i m).
Proof.
  intros Hm p (Hloc & Hvic). unfold atLocal.
  destruct (indexLocal (arrayOf g p) i) as [l |] eqn:Hl; [| split; assumption].
  destruct (indexLocal_Some _ _ _ Hl) as (Hi & a & Ha & Hal).
  rewrite Ha. specialize (Hm l).
  destruct (m l) as [r l']. cbn [snd] in *.
  destruct g; cbn [arrayOf] in Ha; unfold pool_ok, setArray; cbn [local localSize victim victimSize].
  - rewrite Ha in Hloc. split; [| exact Hvic].
    apply generation_ok_insert; [exact Hloc |].
    apply Hm. destruct Hloc as (_ & Hall). eapply Forall_lookup_1 in Hall; eassumption.
  - rewrite Ha in Hvic. split; [exact Hloc |].
    apply generation_ok_insert; [exact Hvic |].
    apply Hm. destruct Hvic as (_ & Hall). eapply Forall_lookup_1 in Hall; eassumption.
Qed.

Lemma kept_getPrivate : keeps (λ l, chain_ok (shared l)) getPrivate.
Proof. intros l Hl. exact Hl. Qed.

Lemma kept_setPrivate (x : T) : keeps (λ l, chain_ok (shared l)) (setPrivate x).
Proof. intros l Hl. exact Hl. Qed.

Lemma uintptr_small (z : Z) : 0 <= z < 2 ^ 63 → uintptr z = z.
Proof. intros Hz. wrap_arith. Qed.

Lemma int_small (z : Z) : 0 <= z < 2 ^ 63 → int z = z.
Proof. intros Hz. wrap_arith. Qed.

Lemma generation_ok_fresh (n : Z) :
  0 <= n → generation_ok (Some (replicate (Z.to_nat n) emptyLocal)) n.
Proof.
  intros Hn. split.
  - rewrite length_replicate. lia.
  - apply Forall_replicate. constructor.
Qed.

(** What [pin] does on a well-formed pool. *)
Lemma pin_spec (rt : runtime) (p : Pool) :
  runtime_ok rt → pool_ok p →
  ∃ p', pin rt p = (Returns (procPin rt), p')
        ∧ pool_ok p'
        ∧ procPin rt < localSize p'
        ∧ New p' = New p ∧ victim p' = victim p ∧ victimSize p' = victimSize p
        ∧ ((procPin rt < localSize p ∧ p' = p)
           ∨ (localSize p <= procPin rt
              ∧ local p' = Some (replicate (Z.to_nat (GOMAXPROCS rt)) emptyLocal)
              ∧ localSize p' = GOMAXPROCS rt)).
Proof.
  intros (Hpid & HG) (Hloc & Hvic). unfold pin.
  rewrite uintptr_small by lia.
  destruct (procPin rt <? localSize p) eqn:Hcov.
  - apply Z.ltb_lt in Hcov. exists p.
    split; [reflexivity |]. split; [split; assumption |].
    split; [exact Hcov |]. split; [reflexivity |]. split; [reflexivity |].
    split; [reflexivity |].
    left. split; [exact Hcov | reflexivity].
  - apply Z.ltb_ge in Hcov. unfold pinSlow.
    rewrite uintptr_small by lia.
    replace (procPin rt <? localSize p) with false by (symmetry; apply Z.ltb_ge; exact Hcov).
    destruct (replicate (Z.to_nat (GOMAXPROCS rt)) (mkLocal zeroValue (Chain.mkChain [])))
      as [| l0 ls] eqn:Hfresh.
    { apply (f_equal length) in Hfresh. rewrite length_replicate in Hfresh.
      cbn in Hfresh. lia. }
    rewrite <- Hfresh. fold emptyLocal.
    replace ((0 <=? procPin rt) && (procPin rt <? GOMAXPROCS rt)) with true
      by (symmetry; apply andb_true_intro; split; [apply Z.leb_le | apply Z.ltb_lt]; lia).
    rewrite uintptr_small by lia.
    eexists. split; [reflexivity |].
    split.
    { split; cbn [local localSize victim victimSize];
        [apply generation_ok_fresh; lia | exact Hvic]. }
    cbn [local localSize victim victimSize New].
    split; [lia |]. split; [reflexivity |]. split; [reflexivity |].
    split; [reflexivity |].
    right. split; [exact Hcov | split; reflexivity].
Qed.

(** X8: [pin] on a well-formed pool always returns the worker index the
    scheduler gave, with a current generation that covers that worker.
    When the generation already covers it the pool is left alone;
    otherwise the whole current generation is replaced by [GOMAXPROCS]
    empty locals, whatever the old one held.  The factory and the victim
    generation are never touched. *)
Theorem pin_covers_worker (rt : runtime) (p : Pool) :
  runtime_ok rt → pool_ok p →
  ∃ p', pin rt p = (Returns (procPin rt), p')
        ∧ pool_ok p'
        ∧ procPin rt < localSize p'
        ∧ New p' = New p ∧ victim p' = victim p ∧ victimSize p' = victimSize p
        ∧ ((procPin rt < localSize p ∧ p' = p)
           ∨ (localSize p <= procPin rt
              ∧ local p' = Some (replicate (Z.to_nat (GOMAXPROCS rt)) emptyLocal)
              ∧ localSize p' = GOMAXPROCS rt)).
Proof. apply pin_spec. Qed.

Lemma runtime_ok_oneWorker : runtime_ok oneWorker.
Proof. unfold runtime_ok. cbn. lia. Qed.

Lemma pool_ok_idlePool : pool_ok idlePool.
Proof.
  split; cbn; [| reflexivity].
  split; [lia | repeat constructor].
Qed.

Lemma pin_covers_worker_witness :
  ∃ p', pin oneWorker idlePool = (Returns 0, p')
        ∧ pool_ok p'
        ∧ 0 < localSize p'
        ∧ New p' = None ∧ victim p' = None ∧ victimSize p' = 0
        ∧ ((0 < 1 ∧ p' = idlePool)
           ∨ (1 <= 0
              ∧ local p' = Some (replicate 1 emptyLocal)
              ∧ localSize p' = 1)).
Proof.
  apply (pin_covers_worker oneWorker idlePool).
  - exact runtime_ok_oneWorker.
  - exact pool_ok_idlePool.
Defined.

(** After [pin], the worker's local is there. *)
Lemma covered_local (p : Pool) (pid : Z) :
  pool_ok p → 0 <= pid < localSize p →
  ∃ a l, local p = Some a ∧ a !! Z.to_nat pid = Some l ∧ chain_ok (shared l).
Proof.
  intros (Hloc & _) Hpid. unfold generation_ok in Hloc.
  destruct (local p) as [a |]; [| lia].
  destruct Hloc as (Hsize & Hall).
  destruct (lookup_lt_is_Some_2 a (Z.to_nat pid)) as [l Hl]; [lia |].
  exists a, l. split; [reflexivity | split; [exact Hl |]].
  eapply Forall_lookup_1 in Hall; eassumption.
Qed.

Lemma kept_pin (rt : runtime) : runtime_ok rt → keeps pool_ok (pin rt).
Proof.
  intros Hrt p Hp. destruct (pin_spec rt p Hrt Hp) as (p' & -> & Hp' & _).
  exact Hp'.
Qed.

Lemma kept_push (v : T) : keeps chain_ok (Chain.pushHead v).
Proof. intros c. apply chain_pushHead_ok. Qed.

Lemma kept_popHead : keeps chain_ok Chain.popHead.
Proof. intros c. apply chain_popHead_ok. Qed.

Lemma kept_popTail : keeps chain_ok Chain.popTail.
Proof. intros c. apply chain_popTail_ok. Qed.

Lemma kept_Put (rt : runtime) (v : T) : runtime_ok rt → keeps pool_ok (Put rt v).
Proof.
  intros Hrt. unfold Put. destruct (isNil v); [apply kept_ret |].
  apply kept_bind; [apply kept_pin, Hrt |].
  intros pid. apply kept_atLocal, kept_onShared, kept_push.
Qed.

Lemma kept_storeVictimSize : keeps pool_ok (storeVictimSize 0).
Proof.
  intros p (Hloc & Hvic). split; [exact Hloc |].
  cbn [storeVictimSize snd victim victimSize]. unfold generation_ok in *.
  destruct (victim p) as [a |]; [| reflexivity].
  destruct Hvic as (_ & Hall). split; [lia | exact Hall].
Qed.

Lemma kept_getSlow (pid : Z) : keeps pool_ok (getSlow pid).
Proof.
  intros p Hp. unfold getSlow.
  apply (kept_bind pool_ok); [| | exact Hp].
  - apply kept_forRange. intros i. apply kept_bind.
    + apply kept_atLocal, kept_onShared, kept_popTail.
    + intros x. destruct (negb (isNil x.1)); apply kept_ret.
  - intros [x |]; [apply kept_ret |].
    intros q Hq. destruct (uintptr pid >=? victimSize q); [exact Hq |].
    apply (kept_bind pool_ok); [| | exact Hq].
    + apply kept_atLocal, kept_getPrivate.
    + intros x. destruct (negb (isNil x)).
      * apply kept_bind; [apply kept_atLocal, kept_setPrivate |].
        intros _. apply kept_ret.
      * apply kept_bind.
        -- apply kept_forRange. intros i. apply kept_bind.
           ++ apply kept_atLocal, kept_onShared, kept_popTail.
           ++ intros y. destruct addressIsNotNil; apply kept_ret.
        -- intros [y |]; [apply kept_ret |].
           apply kept_bind; [apply kept_storeVictimSize |].
           intros _. apply kept_ret.
Qed.

Lemma kept_Get (rt : runtime) : runtime_ok rt → keeps pool_ok (Get rt).
Proof.
  intros Hrt. unfold Get.
  apply kept_bind; [apply kept_pin, Hrt |]. intros pid.
  apply kept_bind; [apply kept_atLocal, kept_getPrivate |]. intros x.
  apply kept_bind; [apply kept_atLocal, kept_setPrivate |]. intros _.
  apply kept_bind.
  - destruct (isNil x); [| apply kept_ret].
    apply kept_bind; [apply kept_atLocal, kept_onShared, kept_popHead |].
    intros r. cbv zeta. destruct (isNil r.1); [apply kept_getSlow | apply kept_ret].
  - intros y p Hp. destruct (New p) as [new |]; [destruct (isNil y) |]; exact Hp.
Qed.

Lemma pool_ok_demote (p : Pool) : pool_ok p → pool_ok (demote p).
Proof. intros (Hloc & _). split; [reflexivity | exact Hloc]. Qed.

Lemma pool_ok_dropVictim (p : Pool) : pool_ok p → pool_ok (dropVictim p).
Proof. intros (Hloc & _). split; [exact Hloc | reflexivity]. Qed.

(** X9: every pool the code reaches is well-formed: each generation
    pointer is nil with size 0 or an array of at least [size] locals
    whose chains are well-formed.  A new pool is, and [Put], [Get],
    [getSlow] and the two bodies of the decay step keep it so, whatever
    their outcome. *)
Theorem pool_ok_kept :
  (∀ f, pool_ok (newPool f))
  ∧ (∀ rt p, runtime_ok rt → pool_ok p →
       (∀ v, pool_ok (snd (Put rt v p)))
       ∧ pool_ok (snd (Get rt p))
       ∧ (∀ pid, pool_ok (snd (getSlow pid p)))
       ∧ pool_ok (demote p)
       ∧ pool_ok (dropVictim p)).
Proof.
  split; [intros f; split; reflexivity |].
  intros rt p Hrt Hp. split; [| split; [| split; [| split]]].
  - intros v. apply kept_Put; assumption.
  - apply kept_Get; assumption.
  - intros pid. apply kept_getSlow, Hp.
  - apply pool_ok_demote, Hp.
  - apply pool_ok_dropVictim, Hp.
Qed.

Lemma pool_ok_kept_witness :
  pool_ok (snd (Get oneWorker (snd (Put oneWorker 5 (newPool None))))).
Proof.
  destruct pool_ok_kept as (Hnew & Hstep).
  destruct (Hstep oneWorker (newPool None) runtime_ok_oneWorker (Hnew None))
    as (Hput & _).
  destruct (Hstep oneWorker _ runtime_ok_oneWorker (Hput 5)) as (_ & Hget & _).
  exact Hget.
Defined.

(** *** Put, then Get *)

Lemma setArray_twice (g : generation) (a b : list poolLocal) (p : Pool) :
  setArray g a (setArray g b p) = setArray g a p.
Proof. destruct g; reflexivity. Qed.

Lemma arrayOf_setArray (g : generation) (a : list poolLocal) (p : Pool) :
  arrayOf g (setArray g a p) = Some a.
Proof. destruct g; reflexivity. Qed.

Lemma localSize_setArray (g : generation) (a : list poolLocal) (p : Pool) :
  localSize (setArray g a p) = localSize p.
Proof. destruct g; reflexivity. Qed.

(** What [Put] of a non-zero value does on a well-formed pool. *)
Lemma Put_spec (rt : runtime) (v : T) (p : Pool) :
  runtime_ok rt → pool_ok p → v ≠ 0 →
  ∃ p1 a l c',
    pin rt p = (Returns (procPin rt), p1)
    ∧ local p1 = Some a
    ∧ a !! Z.to_nat (procPin rt) = Some l
    ∧ Chain.pushHead v (shared l) = (Returns tt, c')
    ∧ fst (Chain.popHead c') = Returns (v, true)
    ∧ Put rt v p
      = (Returns tt,
         setArray Current (<[Z.to_nat (procPin rt) := mkLocal (private l) c']> a) p1).
Proof.
  intros Hrt Hp Hv. pose proof Hrt as (Hpid & _).
  destruct (pin_spec rt p Hrt Hp) as (p1 & Hpin & Hp1 & Hcov & _).
  destruct (covered_local p1 (procPin rt) Hp1) as (a & l & Ha & Hl & Hc); [lia |].
  destruct (chain_push_pop v (shared l) Hc Hv) as (c' & Hpush & Hpop).
  exists p1, a, l, c'. repeat (split; [assumption |]).
  unfold Put. replace (isNil v) with false by (symmetry; apply Z.eqb_neq; exact Hv).
  unfold bind. rewrite Hpin.
  rewrite (atLocal_Some Current (procPin rt) _ p1 a l) by (assumption || lia).
  unfold onShared. rewrite Hpush. reflexivity.
Qed.

(** X10: on a well-formed pool, [Put] always returns: it does not panic
    and the pool stays well-formed. *)
Theorem Put_always_returns (rt : runtime) (v : T) (p : Pool) :
  runtime_ok rt → pool_ok p →
  ∃ p', Put rt v p = (Returns tt, p') ∧ pool_ok p'.
Proof.
  intros Hrt Hp. pose proof (kept_Put rt v Hrt p Hp) as Hok.
  destruct (decide (v = 0)) as [-> | Hv].
  - exists p. split; [reflexivity | exact Hp].
  - destruct (Put_spec rt v p Hrt Hp Hv) as (p1 & a & l & c' & _ & _ & _ & _ & _ & Hput).
    rewrite Hput in *. eexists. split; [reflexivity | exact Hok].
Qed.

Lemma Put_always_returns_witness :
  ∃ p', Put oneWorker 5 idlePool = (Returns tt, p') ∧ pool_ok p'.
Proof.
  apply (Put_always_returns oneWorker 5 idlePool).
  - exact runtime_ok_oneWorker.
  - exact pool_ok_idlePool.
Defined.

(** With an empty private slot, [Get] serves what the [popHead] of the
    worker's chain returns. *)
Lemma Get_serves_chain (rt : runtime) (p : Pool) (a : list poolLocal)
    (l : poolLocal) (v : T) :
  0 <= procPin rt → uintptr (procPin rt) < localSize p →
  local p = Some a → a !! Z.to_nat (procPin rt) = Some l →
  private l = 0 → fst (Chain.popHead (shared l)) = Returns (v, true) → v ≠ 0 →
  fst (Get rt p) = Returns v.
Proof.
  intros Hi Hpid Ha Hal Hpriv Hpop Hv.
  assert (Hp : setArray Current a p = p).
  { destruct p; cbn in *. congruence. }
  assert (Hl0 : mkLocal zeroValue (shared l) = l).
  { destruct l; cbn in *. unfold zeroValue. congruence. }
  unfold Get, bind, pin.
  replace (uintptr (procPin rt) <? localSize p) with true
    by (symmetry; apply Z.ltb_lt; exact Hpid).
  rewrite (atLocal_Some Current (procPin rt) getPrivate p a l) by assumption.
  cbn [getPrivate fst snd]. rewrite list_insert_id, Hp by assumption.
  cbv beta iota.
  rewrite (atLocal_Some Current (procPin rt) _ p a l) by assumption.
  cbn [setPrivate fst snd].
  rewrite Hl0, list_insert_id, Hp, Hpriv by assumption.
  cbv beta iota. change (isNil 0) with true. cbv beta iota.
  rewrite (atLocal_Some Current (procPin rt) _ p a l) by assumption.
  unfold onShared. destruct (Chain.popHead (shared l)) as [r c]. cbn [fst snd] in *.
  subst r. cbv beta iota zeta. cbn [fst].
  assert (Hn : isNil v = false) by (apply Z.eqb_neq; exact Hv).
  rewrite Hn. unfold ret. cbv beta iota.
  destruct (New _); rewrite ?Hn; reflexivity.
Qed.

(** X11: on a well-formed pool whose worker has an empty private slot,
    [Put] of a non-zero value followed by [Get] by the same worker gives
    that value back. *)
Theorem Put_Get_roundtrip (rt : runtime) (v : T) (p : Pool) :
  runtime_ok rt → pool_ok p → v ≠ 0 →
  (∀ l, indexLocal (local p) (procPin rt) = Some l → private l = 0) →
  fst (Get rt (snd (Put rt v p))) = Returns v.
Proof.
  intros Hrt Hp Hv Hempty. pose proof Hrt as (Hpid & HG).
  destruct (Put_spec rt v p Hrt Hp Hv)
    as (p1 & a & l & c' & Hpin & Ha & Hal & Hpush & Hpop & Hput).
  destruct (pin_spec rt p Hrt Hp) as (p1' & Hpin' & _ & Hcov & _ & _ & _ & Hcase).
  rewrite Hpin in Hpin'. injection Hpin' as <-.
  assert (Hpriv : private l = 0).
  { destruct Hcase as [(_ & ->) | (_ & Hfresh & _)].
    - apply Hempty. unfold indexLocal.
      replace (0 <=? procPin rt) with true by (symmetry; apply Z.leb_le; lia).
      rewrite Ha. exact Hal.
    - rewrite Ha in Hfresh. injection Hfresh as ->.
      apply lookup_replicate in Hal as [-> _]. reflexivity. }
  rewrite Hput. cbn [snd].
  apply (Get_serves_chain rt _ (<[Z.to_nat (procPin rt) := mkLocal (private l) c']> a)
           (mkLocal (private l) c')).
  - lia.
  - rewrite localSize_setArray, uintptr_small by lia. exact Hcov.
  - reflexivity.
  - apply list_lookup_insert_eq. eapply lookup_lt_Some, Hal.
  - exact Hpriv.
  - exact Hpop.
  - exact Hv.
Qed.

Lemma Put_Get_roundtrip_witness :
  fst (Get oneWorker (snd (Put oneWorker 5 idlePool))) = Returns 5.
Proof.
  apply (Put_Get_roundtrip oneWorker 5 idlePool).
  - exact runtime_ok_oneWorker.
  - exact pool_ok_idlePool.
  - discriminate.
  - intros l [= <-]. reflexivity.
Defined.

(** X12: [Get] looks at the private slot first: when it holds a value,
    [Get] returns it and clears the slot, and the worker's chain is not
    touched. *)
Theorem Get_private_first (rt : runtime) (p : Pool) (l : poolLocal) :
  uintptr (procPin rt) < localSize p →
  indexLocal (local p) (procPin rt) = Some l →
  private l ≠ 0 →
  fst (Get rt p) = Returns (private l)
  ∧ indexLocal (local (snd (Get rt p))) (procPin rt)
    = Some (mkLocal 0 (shared l))
  ∧ victim (snd (Get rt p)) = victim p
  ∧ victimSize (snd (Get rt p)) = victimSize p.
Proof.
  intros Hpid Hl Hpriv.
  destruct (indexLocal_Some _ _ _ Hl) as (Hi & a & Ha & Hal).
  assert (Hp : setArray Current a p = p).
  { destruct p; cbn in *. congruence. }
  unfold Get, bind, pin.
  replace (uintptr (procPin rt) <? localSize p) with true
    by (symmetry; apply Z.ltb_lt; exact Hpid).
  rewrite (atLocal_Some Current (procPin rt) getPrivate p a l) by assumption.
  cbn [getPrivate fst snd]. rewrite list_insert_id, Hp by assumption.
  cbv beta iota.
  rewrite (atLocal_Some Current (procPin rt) _ p a l) by assumption.
  cbn [setPrivate fst snd]. cbv beta iota.
  assert (Hn : isNil (private l) = false) by (apply Z.eqb_neq; exact Hpriv).
  rewrite Hn. unfold ret. cbv beta iota.
  split; [destruct (New _); rewrite ?Hn; reflexivity |].
  assert (Hlook : indexLocal
            (local (setArray Current
                      (<[Z.to_nat (procPin rt) := mkLocal zeroValue (shared l)]> a) p))
            (procPin rt) = Some (mkLocal 0 (shared l))).
  { unfold indexLocal, setArray. cbn [local].
    replace (0 <=? procPin rt) with true by (symmetry; apply Z.leb_le; exact Hi).
    cbn. apply list_lookup_insert_eq. eapply lookup_lt_Some, Hal. }
  destruct (New _); rewrite ?Hn; cbn [snd]; (split; [exact Hlook | split; reflexivity]).
Qed.

Lemma Get_private_first_witness :
  fst (Get oneWorker samplePool1) = Returns 7
  ∧ indexLocal (local (snd (Get oneWorker samplePool1))) 0
    = Some (mkLocal 0 (Chain.mkChain []))
  ∧ victim (snd (Get oneWorker samplePool1)) = victim samplePool1
  ∧ victimSize (snd (Get oneWorker samplePool1)) = victimSize samplePool1.
Proof.
  apply (Get_private_first oneWorker samplePool1 (mkLocal 7 (Chain.mkChain []))).
  - reflexivity.
  - reflexivity.
  - discriminate.
Defined.

(** *** The slow path *)

Lemma forRange_all_none {S A : Type} (body : Z → M S (option A)) (s : S) (n : nat) :
  ∀ from,
    (∀ i, from <= i < from + Z.of_nat n → body i s = (Returns None, s)) →
    forRange body from n s = (Returns None, s).
Proof.
  induction n as [| n IH]; intros from Hbody; [reflexivity |].
  cbn [forRange]. unfold bind. rewrite Hbody by lia.
  apply IH. intros i Hi. apply Hbody. lia.
Qed.

Lemma forRange_some_origin {S A : Type} (body : Z → M S (option A)) (a : A) (n : nat) :
  ∀ from s, fst (forRange body from n s) = Returns (Some a) →
    ∃ i s', fst (body i s') = Returns (Some a).
Proof.
  induction n as [| n IH]; intros from s; [discriminate |].
  cbn [forRange]. unfold bind.
  destruct (body from s) as [[[b |] | |] s1] eqn:Hb; cbn [fst]; try discriminate.
  - intros [= ->]. exists from, s. rewrite Hb. reflexivity.
  - apply IH.
Qed.

Lemma bind_panics {S A B : Type} (m : M S A) (k : A → M S B) (s : S) :
  fst (m s) = Panics → fst (bind m k s) = Panics.
Proof.
  intros Hm. unfold bind. destruct (m s) as [[a | |] s1]; cbn [fst] in *;
    (discriminate || reflexivity).
Qed.

(** A steal attempt yields nothing: it panics or it returns the zero
    value and false. *)
Lemma atLocal_popTail_cases (g : generation) (i : Z) (p : Pool) :
  fst (atLocal g i (onShared Chain.popTail) p) = Panics
  ∨ fst (atLocal g i (onShared Chain.popTail) p) = Returns (0, false).
Proof.
  unfold atLocal.
  destruct (indexLocal (arrayOf g p) i) as [l |]; [| left; reflexivity].
  destruct (arrayOf g p) as [a |]; [| left; reflexivity].
  unfold onShared. pose proof (chain_popTail_cases (shared l)) as Hc.
  destruct (Chain.popTail (shared l)) as [r c]. exact Hc.
Qed.

Lemma steal_never_some (g : generation) (i : Z) (p : Pool) (x : T) :
  fst ((x <~ atLocal g i (onShared Chain.popTail) ;;
        if negb (isNil (fst x)) then ret (Some (fst x)) else ret None) p)
  ≠ Returns (Some x).
Proof.
  unfold bind. pose proof (atLocal_popTail_cases g i p) as Hc.
  destruct (atLocal g i (onShared Chain.popTail) p) as [[[v b] | |] p1];
    cbn [fst] in *; try discriminate.
  destruct Hc as [Hc | Hc]; [discriminate |]. injection Hc as -> ->.
  discriminate.
Qed.

Lemma victim_scan_some_zero (g : generation) (i : Z) (p : Pool) (x : T) :
  fst ((x <~ atLocal g i (onShared Chain.popTail) ;;
        if addressIsNotNil then ret (Some (fst x)) else ret None) p)
  = Returns (Some x) → x = 0.
Proof.
  unfold bind. pose proof (atLocal_popTail_cases g i p) as Hc.
  destruct (atLocal g i (onShared Chain.popTail) p) as [[[v b] | |] p1];
    cbn [fst] in *; try discriminate.
  destruct Hc as [Hc | Hc]; [discriminate |]. injection Hc as -> ->.
  cbn. intros [= <-]. reflexivity.
Qed.

Lemma kept_victim_atLocal_Current {A : Type} (V : option (list poolLocal))
    (i : Z) (m : M poolLocal A) :
  keeps (λ p, victim p = V) (atLocal Current i m).
Proof.
  intros p Hp. unfold atLocal.
  destruct (indexLocal (arrayOf Current p) i) as [l |]; [| exact Hp].
  destruct (arrayOf Current p) as [a |]; [| exact Hp].
  destruct (m l) as [r l']. exact Hp.
Qed.

(** X13: [getSlow] never steals.  A non-zero value it returns is the
    private value of the caller's slot in the victim generation, which
    it clears; the scans of the other workers' chains, current or
    victim, contribute nothing. *)
Theorem getSlow_never_steals (pid : Z) (p p' : Pool) (x : T) :
  getSlow pid p = (Returns x, p') → x ≠ 0 →
  ∃ l, indexLocal (victim p) pid = Some l
       ∧ private l = x
       ∧ indexLocal (victim p') pid = Some (mkLocal 0 (shared l)).
Proof.
  unfold getSlow.
  set (scan := forRange _ 0 (Z.to_nat (int (localSize p)))).
  assert (Hkeep : keeps (λ q, victim q = victim p) scan).
  { apply kept_forRange. intros i. apply kept_bind.
    - apply kept_victim_atLocal_Current.
    - intros y. destruct (negb (isNil y.1)); apply kept_ret. }
  specialize (Hkeep p eq_refl).
  assert (Hnone : ∀ y, fst (scan p) ≠ Returns (Some y)).
  { intros y Hy. apply forRange_some_origin in Hy as (i & s' & Hy).
    apply steal_never_some in Hy. exact Hy. }
  unfold bind at 1.
  destruct (scan p) as [[[y |] | |] p1]; cbn [fst snd] in *;
    [exfalso; apply (Hnone y); reflexivity | | discriminate | discriminate].
  clear Hnone scan. rewrite <- Hkeep. clear Hkeep p. rename p1 into p.
  destruct (uintptr pid >=? victimSize p).
  { intros [= <- <-] Hx. contradiction. }
  unfold bind at 1. unfold atLocal at 1.
  destruct (indexLocal (arrayOf Victim p) pid) as [l |] eqn:Hl; [| discriminate].
  destruct (indexLocal_Some _ _ _ Hl) as (Hi & a & Ha & Hal).
  rewrite Ha. cbn [getPrivate].
  rewrite (list_insert_id _ _ _ Hal).
  destruct (negb (isNil (private l))) eqn:Hpriv.
  - unfold bind.
    rewrite (atLocal_Some Victim pid _ _ a l);
      [| exact Hi | apply arrayOf_setArray | exact Hal].
    cbn [setPrivate fst snd]. unfold ret.
    intros [= <- <-] Hx. exists l. split; [exact Hl | split; [reflexivity |]].
    unfold indexLocal. cbn [victim].
    replace (0 <=? pid) with true by (symmetry; apply Z.leb_le; exact Hi).
    cbn. apply list_lookup_insert_eq. eapply lookup_lt_Some, Hal.
  - unfold bind at 1.
    set (scan2 := forRange _ 0 _).
    assert (Hzero : ∀ y, fst (scan2 (setArray Victim a p)) = Returns (Some y) → y = 0).
    { intros y Hy. apply forRange_some_origin in Hy as (i & s' & Hy).
      apply victim_scan_some_zero in Hy. exact Hy. }
    destruct (scan2 (setArray Victim a p)) as [[[y |] | |] p2]; cbn [fst] in *;
      try discriminate.
    + unfold ret. intros [= <- <-] Hx. exfalso. apply Hx, Hzero. reflexivity.
    + unfold bind, storeVictimSize, ret. intros [= <- <-] Hx. contradiction.
Qed.

Lemma getSlow_never_steals_witness :
  ∃ l, indexLocal (victim samplePool1) 0 = Some l
       ∧ private l = 8
       ∧ indexLocal (victim (snd (getSlow 0 samplePool1))) 0
         = Some (mkLocal 0 (shared l)).
Proof.
  apply (getSlow_never_steals 0 samplePool1 (snd (getSlow 0 samplePool1)) 8).
  - vm_compute. reflexivity.
  - discriminate.
Defined.

(** *** A generation that has just been allocated *)

Lemma allocated_lookup (n i : Z) :
  0 <= i < n →
  replicate (Z.to_nat n) emptyLocal !! Z.to_nat i = Some emptyLocal.
Proof. intros Hi. apply lookup_replicate_2. lia. Qed.

(** [pinSlow] on a pool whose current generation does not cover the
    worker. *)
Lemma pin_allocates (rt : runtime) (p : Pool) :
  runtime_ok rt → localSize p <= procPin rt →
  pin rt p
  = (Returns (procPin rt),
     allocated (New p) (GOMAXPROCS rt) (victim p) (victimSize p)).
Proof.
  intros (Hpid & HG) Hcov. unfold pin, pinSlow.
  rewrite !uintptr_small by lia.
  replace (procPin rt <? localSize p) with false by (symmetry; apply Z.ltb_ge; exact Hcov).
  destruct (replicate (Z.to_nat (GOMAXPROCS rt)) (mkLocal zeroValue (Chain.mkChain [])))
    as [| l0 ls] eqn:Hfresh.
  { apply (f_equal length) in Hfresh. rewrite length_replicate in Hfresh.
    cbn in Hfresh. lia. }
  rewrite <- Hfresh.
  replace ((0 <=? procPin rt) && (procPin rt <? GOMAXPROCS rt)) with true
    by (symmetry; apply andb_true_intro; split; [apply Z.leb_le | apply Z.ltb_lt]; lia).
  reflexivity.
Qed.

Lemma pin_allocated (rt : runtime) (f : option (unit → T))
    (v : option (list poolLocal)) (vs : Z) :
  runtime_ok rt →
  pin rt (allocated f (GOMAXPROCS rt) v vs)
  = (Returns (procPin rt), allocated f (GOMAXPROCS rt) v vs).
Proof.
  intros (Hpid & HG). unfold pin. cbn [allocated localSize].
  rewrite uintptr_small by lia.
  replace (procPin rt <? GOMAXPROCS rt) with true by (symmetry; apply Z.ltb_lt; lia).
  reflexivity.
Qed.

Lemma bind_returns {S A B : Type} (m : M S A) (k : A → M S B) (s s' : S) (a : A) :
  m s = (Returns a, s') → bind m k s = k a s'.
Proof. intros Hm. unfold bind. rewrite Hm. reflexivity. Qed.

(** [Get] on a pool that needs a new generation goes on as on the pool
    [pinSlow] leaves. *)
Lemma Get_after_alloc (rt : runtime) (p : Pool) :
  runtime_ok rt → localSize p <= procPin rt →
  Get rt p = Get rt (allocated (New p) (GOMAXPROCS rt) (victim p) (victimSize p)).
Proof.
  intros Hrt Hcov. unfold Get.
  rewrite (bind_returns (pin rt) _ p _ _ (pin_allocates rt p Hrt Hcov)).
  rewrite (bind_returns (pin rt) _ _ _ _ (pin_allocated rt _ _ _ Hrt)).
  reflexivity.
Qed.

Lemma atLocal_idle {A : Type} (f : option (unit → T)) (n : Z)
    (v : option (list poolLocal)) (vs : Z) (i : Z) (m : M poolLocal A) (r : outcome A) :
  0 <= i < n → m emptyLocal = (r, emptyLocal) →
  atLocal Current i m (allocated f n v vs) = (r, allocated f n v vs).
Proof.
  intros Hi Hm.
  rewrite (atLocal_Some Current i m _ (replicate (Z.to_nat n) emptyLocal) emptyLocal);
    [| lia | reflexivity | apply allocated_lookup, Hi].
  rewrite Hm. cbn [fst snd].
  rewrite list_insert_id by (apply allocated_lookup, Hi). reflexivity.
Qed.

(** The scan of a generation of empty locals finds nothing and changes
    nothing. *)
Lemma scan_idle (f : option (unit → T)) (n pid : Z)
    (v : option (list poolLocal)) (vs : Z) :
  0 <= pid < n → n < 2 ^ 62 →
  forRange (λ i,
      x <~ atLocal Current (Z.rem (int (pid + i + 1)) (int n))
             (onShared Chain.popTail) ;;
      if negb (isNil (fst x)) then ret (Some (fst x)) else ret None)
    0 (Z.to_nat (int n)) (allocated f n v vs)
  = (Returns None, allocated f n v vs).
Proof.
  intros Hpid Hn. apply forRange_all_none. intros i Hi.
  rewrite int_small in Hi by lia.
  rewrite !int_small by lia.
  unfold bind.
  rewrite (atLocal_idle f n v vs _ _ (Returns (0, false)));
    [reflexivity | apply Z.rem_bound_pos; lia | reflexivity].
Qed.

(** With nothing of its own, the worker goes to the slow path. *)
Lemma Get_slow_path (rt : runtime) (f : option (unit → T))
    (v : option (list poolLocal)) (vs : Z) :
  runtime_ok rt →
  Get rt (allocated f (GOMAXPROCS rt) v vs)
  = bind (getSlow (procPin rt)) orNew (allocated f (GOMAXPROCS rt) v vs).
Proof.
  intros Hrt. pose proof Hrt as (Hpid & HG).
  unfold Get.
  rewrite (bind_returns (pin rt) _ _ _ _ (pin_allocated rt _ _ _ Hrt)).
  rewrite (bind_returns _ _ _ _ _
             (atLocal_idle f _ v vs _ getPrivate (Returns 0) Hpid eq_refl)).
  rewrite (bind_returns _ _ _ _ _
             (atLocal_idle f _ v vs _ (setPrivate zeroValue) (Returns tt) Hpid eq_refl)).
  change (isNil 0) with true. cbv iota.
  unfold bind at 1.
  rewrite (bind_returns _ _ _ _ _
             (atLocal_idle f _ v vs _ (onShared Chain.popHead) (Returns (0, false))
                Hpid eq_refl)).
  reflexivity.
Qed.

(** X14: [Get] on a pool that was never used allocates the current
    generation and returns the factory's value, or the zero value when
    there is no factory; nothing else changes. *)
Theorem Get_on_fresh_pool (rt : runtime) (f : option (unit → T)) :
  runtime_ok rt →
  Get rt (newPool f)
  = (Returns (match f with Some new => new tt | None => 0 end),
     allocated f (GOMAXPROCS rt) None 0).
Proof.
  intros Hrt. pose proof Hrt as (Hpid & HG).
  rewrite Get_after_alloc by (exact Hrt || (cbn; lia)).
  cbn [newPool New victim victimSize].
  rewrite Get_slow_path by exact Hrt.
  unfold bind at 1, getSlow. unfold bind at 1.
  cbn [allocated localSize]. fold (allocated f (GOMAXPROCS rt) None 0).
  rewrite scan_idle by lia.
  cbn [allocated victimSize]. rewrite uintptr_small by lia.
  replace (procPin rt >=? 0) with true by (symmetry; apply Z.geb_le; lia).
  unfold orNew. cbn [New]. destruct f; reflexivity.
Qed.

Lemma Get_on_fresh_pool_witness :
  Get oneWorker (newPool (Some (λ _, 42)))
  = (Returns 42, allocated (Some (λ _, 42)) 1 None 0).
Proof.
  apply (Get_on_fresh_pool oneWorker (Some (λ _, 42))).
  exact runtime_ok_oneWorker.
Defined.

(** *** A pool whose current generation has become its victim generation *)

(** The slow path on a new current generation, when the worker's chain
    in the victim generation holds a value: the scan of the victim
    chains reaches [popTail] on that chain, which panics. *)
Lemma getSlow_victim_chain_panics (f : option (unit → T)) (n pid vs : Z)
    (a : list poolLocal) (l : poolLocal) :
  0 <= pid < n → n < 2 ^ 62 → pid < vs < 2 ^ 63 →
  a !! Z.to_nat pid = Some l → private l = 0 →
  Exists (λ d, ¬ drained d) (Chain.segs (shared l)) →
  fst (getSlow pid (allocated f n (Some a) vs)) = Panics.
Proof.
  intros Hpid Hn Hvs Hal Hpriv Hex.
  unfold getSlow. cbn [allocated localSize]. fold (allocated f n (Some a) vs).
  erewrite bind_returns by (apply scan_idle; assumption).
  cbn [allocated victimSize]. fold (allocated f n (Some a) vs).
  rewrite uintptr_small by lia.
  replace (pid >=? vs) with false by (symmetry; rewrite Z.geb_leb; apply Z.leb_gt; lia).
  assert (Hq : setArray Victim a (allocated f n (Some a) vs) = allocated f n (Some a) vs)
    by reflexivity.
  erewrite bind_returns;
    [| rewrite (atLocal_Some Victim pid getPrivate _ a l) by (lia || reflexivity || exact Hal);
       cbn [getPrivate fst snd]; rewrite list_insert_id, Hq by exact Hal; reflexivity].
  rewrite Hpriv. change (negb (isNil 0)) with false. cbv iota.
  apply bind_panics.
  rewrite int_small by lia.
  destruct (Z.to_nat vs) as [| k] eqn:Hk; [lia |].
  cbn [forRange]. apply bind_panics, bind_panics.
  rewrite Z.add_0_r, int_small, Z.rem_small by lia.
  rewrite (atLocal_Some Victim pid _ _ a l) by (lia || reflexivity || exact Hal).
  cbn [fst]. unfold onShared.
  pose proof (chain_popTail_panics (shared l) Hex) as Hp.
  destruct (Chain.popTail (shared l)) as [r c]. exact Hp.
Qed.

(** [Get] on what the loop body of the decay step leaves of a pool, when
    the worker's chain held a value. *)
Lemma Get_after_demote (rt : runtime) (p : Pool) (l : poolLocal) :
  runtime_ok rt →
  procPin rt < localSize p < 2 ^ 63 →
  indexLocal (local p) (procPin rt) = Some l →
  private l = 0 →
  Exists (λ d, ¬ drained d) (Chain.segs (shared l)) →
  fst (Get rt (demote p)) = Panics.
Proof.
  intros Hrt Hsize Hl Hpriv Hex. pose proof Hrt as (Hpid & HG).
  destruct (indexLocal_Some _ _ _ Hl) as (_ & a & Ha & Hal).
  rewrite Get_after_alloc by (exact Hrt || (cbn; lia)).
  cbn [demote New victim victimSize]. rewrite Ha.
  rewrite Get_slow_path by exact Hrt.
  apply bind_panics.
  apply (getSlow_victim_chain_panics _ _ _ _ a l); assumption || lia.
Qed.

(** ** Registration and the decay step *)

Lemma PutAt_nonzero (rt : runtime) (a : nat) (x : T) (r : registry) :
  x ≠ 0 → PutAt rt a x r = callAt rt (Put rt x) a r.
Proof.
  intros Hx. unfold PutAt.
  replace (isNil x) with false by (symmetry; apply Z.eqb_neq; exact Hx).
  reflexivity.
Qed.

(** A pool that has no current generation yet registers at its first
    call that pins. *)
Lemma pinAppends_new (rt : runtime) (p : Pool) :
  runtime_ok rt → pool_ok p → local p = None → pinAppends rt p = true.
Proof.
  intros (Hpid & HG) (Hloc & _) Hnone. unfold pinAppends.
  unfold generation_ok in Hloc. rewrite Hnone in *. rewrite Hloc.
  rewrite uintptr_small by lia.
  replace (procPin rt <? 0) with false by (symmetry; apply Z.ltb_ge; lia).
  reflexivity.
Qed.


Lemma pool_ok_newPool (f : option (unit → T)) : pool_ok (newPool f).
Proof. split; reflexivity. Qed.

(** C9: the decay step does not reach the pools that register.  A pool
    with no current generation, in a registry the program has reached,
    takes a [Put] of a non-zero value: the call returns, the pool gets its
    current generation, and the entry appended to [allPools] is the
    address of the call's receiver variable.  The decay step that follows
    leaves the pool as the [Put] left it, current generation included: it
    is not moved to the victim slot and not cleared.  The slices are
    swapped all the same. *)
Theorem poolCleanup_misses_registered (rt : runtime) (a : nat) (x : T)
    (r : registry) (p : Pool) :
  runtime_ok rt → x ≠ 0 → reachable r →
  pools r !! a = Some p → pool_ok p → local p = None →
  ∃ r1 p1,
    PutAt rt a x r = (Returns tt, r1)
    ∧ allPools r1 = allPools r ++ [ReceiverVar (length (receivers r))]
    ∧ receivers r1 = receivers r ++ [a]
    ∧ pools r1 !! a = Some p1
    ∧ local p1 ≠ None
    ∧ pools (poolCleanup r1) !! a = Some p1
    ∧ oldPools (poolCleanup r1) = allPools r1
    ∧ allPools (poolCleanup r1) = [].
Proof.
  intros Hrt Hx Hr Hp Hok Hnone.
  destruct (Put_spec rt x p Hrt Hok Hx)
    as (p0 & arr & l & c' & _ & _ & _ & _ & _ & Hput).
  pose proof (callAt_Some rt (Put rt x) a r p Hp) as (Hfst & Hpools & _ & Happ).
  rewrite pinAppends_new in Happ by assumption. destruct Happ as [Hall Hrec].
  pose proof (reach_Put rt a x r Hr) as Hr1.
  rewrite PutAt_nonzero in * by exact Hx.
  exists (snd (callAt rt (Put rt x) a r)), (snd (Put rt x p)).
  assert (Hat : pools (snd (callAt rt (Put rt x) a r)) !! a = Some (snd (Put rt x p))).
  { rewrite Hpools. apply lookup_insert_eq. }
  split; [| split; [exact Hall | split; [exact Hrec | split; [exact Hat |]]]].
  - destruct (callAt rt (Put rt x) a r) as [o r1]. cbn [fst snd] in *.
    rewrite Hfst, Hput. reflexivity.
  - split; [rewrite Hput; discriminate |].
    split; [| split; reflexivity].
    rewrite poolCleanup_receiversOnly by (apply reachable_receiversOnly, Hr1).
    exact Hat.
Qed.

Lemma poolCleanup_misses_registered_witness :
  ∃ r1 p1,
    PutAt oneWorker 1 7 startRegistry = (Returns tt, r1)
    ∧ allPools r1 = allPools startRegistry ++ [ReceiverVar (length (receivers startRegistry))]
    ∧ receivers r1 = receivers startRegistry ++ [1%nat]
    ∧ pools r1 !! 1%nat = Some p1
    ∧ local p1 ≠ None
    ∧ pools (poolCleanup r1) !! 1%nat = Some p1
    ∧ oldPools (poolCleanup r1) = allPools r1
    ∧ allPools (poolCleanup r1) = [].
Proof.
  apply (poolCleanup_misses_registered oneWorker 1 7 startRegistry (newPool None)).
  - exact runtime_ok_oneWorker.
  - discriminate.
  - apply reach_start.
  - reflexivity.
  - apply pool_ok_newPool.
  - reflexivity.
Defined.

(** The run on the model: a new pool at address 1, [Put(7)], one decay
    step.  The pool keeps the segment with the 7 in its current
    generation and has no victim generation; [oldPools] holds the address
    of the receiver variable. *)
Example Put_then_poolCleanup :
  let r := poolCleanup (snd (PutAt oneWorker 1 7 startRegistry)) in
  pools r !! 1%nat
  = Some (mkPool None
            (Some [mkLocal 0 (Chain.mkChain [mkDequeue (pack 1 0) [7; 0; 0; 0; 0; 0; 0; 0]])])
            1 None 0)
  ∧ receivers r = [1%nat]
  ∧ oldPools r = [ReceiverVar 0]
  ∧ allPools r = [].
Proof. vm_compute. repeat split. Qed.




